(** * Azure Message Bus node: the [execute] method

    A shallow embedding of
    [src/nodes/AzureMessageBusNode/AzureMessageBusNode.node.ts].

    The node is a call-through to two collaborators: the n8n host
    ([getNodeParameter], [getInputData], [continueOnFail]) and the
    Azure Service Bus SDK (client, sender, receiver).  Both are modelled as
    injected interfaces.  Every call that [execute] makes on them is logged,
    with its outcome, in a trace; an SDK answer may depend on everything that
    happened before the call. *)

From Stdlib Require Import String List ZArith Lia Bool Arith DecimalString.
Import ListNotations.
Open Scope string_scope.
Open Scope list_scope.

(** ** JavaScript values

    Parameter values, message bodies and output records.  The casts of the
    source ([as string], [as number], [as any]) are erased at run time, so a
    parameter is whatever value the host resolves. *)

#[local] Set Warnings "-register-all".
#[local] Unset Elimination Schemes.

Inductive Json : Type :=
| JNull
| JBool (b : bool)
| JNum (n : Z)
| JStr (s : string)
| JArr (items : list Json)
| JObj (fields : list (string * Json)).

#[local] Set Elimination Schemes.

(** [v === 'lit'] for a string literal. *)
Definition strict_eq_str (v : Json) (lit : string) : bool :=
  match v with
  | JStr s => String.eqb s lit
  | _ => false
  end.

(** The truthiness test of [cond ? a : b]. *)
Definition truthy (v : Json) : bool :=
  match v with
  | JNull => false
  | JBool b => b
  | JNum n => negb (Z.eqb n 0)
  | JStr s => negb (String.eqb s "")
  | JArr _ => true
  | JObj _ => true
  end.

(** String conversion of a value inside a template literal. *)
Fixpoint template_string (v : Json) : string :=
  match v with
  | JNull => "null"
  | JBool true => "true"
  | JBool false => "false"
  | JNum n => NilZero.string_of_int (Z.to_int n)
  | JStr s => s
  | JArr items =>
      (fix join (l : list Json) : string :=
         match l with
         | [] => ""
         | [JNull] => ""
         | [x] => template_string x
         | JNull :: rest => String.append "," (join rest)
         | x :: rest =>
             String.append (template_string x) (String.append "," (join rest))
         end) items
  | JObj _ => "[object Object]"
  end.

(** ** Errors

    A thrown value carries a [message].  [NodeOperationError] is the host's
    error class: it keeps the message of what it wraps and records the
    [itemIndex] option it was built with. *)

Inductive Exn : Type :=
| Error (msg : string)
| NodeOperationError (msg : string) (itemIndex : option nat).

Definition message (e : Exn) : string :=
  match e with
  | Error msg => msg
  | NodeOperationError msg _ => msg
  end.

Definition error_itemIndex (e : Exn) : option nat :=
  match e with
  | Error _ => None
  | NodeOperationError _ i => i
  end.

Inductive Result (A : Type) : Type :=
| Ok (a : A)
| Throw (e : Exn).
Arguments Ok {A} a.
Arguments Throw {A} e.

(** ** The collaborators *)

(** A message handed back by the receiver. *)
Record ReceivedMessage : Type := mkReceived {
  body : Json;
  sequenceNumber : Z
}.

(** SDK calls that resolve to nothing. *)
Inductive Call : Type :=
| NewClient (connectionString : Json)
| CreateSender (queueOrTopic : Json)
| SendMessages (msg : Json)
| SenderClose
| CreateReceiver (queueOrTopic : Json) (subscriptionName : option Json)
| CompleteMessage (msg : ReceivedMessage)
| AbandonMessage (msg : ReceivedMessage)
| DeadLetterMessage (msg : ReceivedMessage)
| ReceiverClose
| ClientClose.

(** SDK calls that resolve to a batch of messages. *)
Inductive Fetch : Type :=
| PeekMessages (maxMessageCount : Json)
| ReceiveMessages (maxMessageCount : Json) (maxWaitTimeInMs : Json).

(** One call of [execute] on a collaborator, with its outcome:
    [this.getNodeParameter(name, itemIndex, fallback)], an SDK call, or a
    fetch. *)
Inductive Event : Type :=
| EvParam (name : string) (itemIndex : nat) (fallback : option Json)
          (r : Result Json)
| EvCall (c : Call) (r : Result unit)
| EvFetch (f : Fetch) (r : Result (list ReceivedMessage)).

Definition Trace : Type := list Event.

(** The host context [this]: parameter resolution, which may throw, the
    input items and the continue-on-failure flag. *)
Record Host : Type := mkHost {
  getNodeParameter : string -> nat -> option Json -> Result Json;
  getInputData : list Json;
  continueOnFail : bool
}.

(** The bus behind the SDK: the outcome of a call, given the history of the
    invocation up to the call. *)
Record Sdk : Type := mkSdk {
  sdk_call : Trace -> Call -> Result unit;
  sdk_fetch : Trace -> Fetch -> Result (list ReceivedMessage)
}.

(** ** The effect monad

    A computation reads the history so far and returns its outcome together
    with the events it emitted. *)

Definition M (A : Type) : Type := Trace -> Result A * Trace.

Definition ret {A} (a : A) : M A := fun _ => (Ok a, []).

Definition throw {A} (e : Exn) : M A := fun _ => (Throw e, []).

Definition bind {A B} (m : M A) (f : A -> M B) : M B := fun h =>
  match m h with
  | (Ok a, evs) => let (r, evs') := f a (h ++ evs) in (r, evs ++ evs')
  | (Throw e, evs) => (Throw e, evs)
  end.

(** [try { m } catch (error) { handler error }] *)
Definition try_catch {A} (m : M A) (handler : Exn -> M A) : M A := fun h =>
  match m h with
  | (Ok a, evs) => (Ok a, evs)
  | (Throw e, evs) =>
      let (r, evs') := handler e (h ++ evs) in (r, evs ++ evs')
  end.

(** [try { m } finally { fin }]: a completion of [fin] by throw replaces the
    completion of [m]. *)
Definition try_finally {A} (m : M A) (fin : M unit) : M A := fun h =>
  let (r, evs) := m h in
  match fin (h ++ evs) with
  | (Ok _, evs') => (r, evs ++ evs')
  | (Throw e', evs') => (Throw e', evs ++ evs')
  end.

Declare Scope js_scope.
Delimit Scope js_scope with js.
Notation "x <- m ;; k" := (bind m (fun x => k))
  (at level 61, m at next level, right associativity) : js_scope.
Notation "m ;;; k" := (bind m (fun _ => k))
  (at level 61, right associativity) : js_scope.

(** ** Result records *)

Definition success_record (itemIndex : nat) (messageBody : Json) : Json :=
  JObj [("success", JBool true);
        ("itemIndex", JNum (Z.of_nat itemIndex));
        ("messageSent", messageBody)].

Definition failure_record (itemIndex : nat) (error_message : string) : Json :=
  JObj [("success", JBool false);
        ("itemIndex", JNum (Z.of_nat itemIndex));
        ("error", JStr error_message)].

Definition receive_record (queueOrTopic subscriptionName : Json)
    (messages : list ReceivedMessage) : Json :=
  JObj [("success", JBool true);
        ("operation", JStr "receive");
        ("queueOrTopic", queueOrTopic);
        ("subscriptionName", subscriptionName);
        ("messagesReceived", JArr (map body messages))].

(** [{ json: ... }] wrapper of an output item. *)
Definition item (json : Json) : Json := JObj [("json", json)].

(** ** execute *)

Section Execute.

Variable host : Host.
Variable sdk : Sdk.

Local Open Scope js_scope.

(** [this.getNodeParameter(name, itemIndex, fallback)] *)
Definition param (name : string) (itemIndex : nat) (fallback : option Json)
  : M Json :=
  fun _ => let r := getNodeParameter host name itemIndex fallback in
           (r, [EvParam name itemIndex fallback r]).

(** An SDK call that resolves to nothing, awaited. *)
Definition call (c : Call) : M unit :=
  fun h => let r := sdk_call sdk h c in (r, [EvCall c r]).

(** [await receiver.peekMessages(...)] or [await receiver.receiveMessages(...)] *)
Definition fetch (f : Fetch) : M (list ReceivedMessage) :=
  fun h => let r := sdk_fetch sdk h f in (r, [EvFetch f r]).

(** One turn of the send loop (lines 183-216), on the [returnData] so far. *)
Definition send_item (itemIndex : nat) (returnData : list Json)
  : M (list Json) :=
  try_catch
    (messageBody <- param "messageBody" itemIndex None ;;
     call (SendMessages (JObj [("body", messageBody)])) ;;;
     ret (returnData ++ [item (success_record itemIndex messageBody)]))
    (fun error =>
       if continueOnFail host
       then ret (returnData ++ [item (failure_record itemIndex (message error))])
       else throw (NodeOperationError (message error) (Some itemIndex))).

(** [for (let itemIndex = ...; itemIndex < items.length; itemIndex++)], with
    [remaining = items.length - itemIndex]. *)
Fixpoint send_loop (remaining itemIndex : nat) (returnData : list Json)
  : M (list Json) :=
  match remaining with
  | O => ret returnData
  | S remaining' =>
      returnData' <- send_item itemIndex returnData ;;
      send_loop remaining' (S itemIndex) returnData'
  end.

(** The body of the post-processing loop (lines 239-245). *)
Definition post_process (postProcess : Json) (msg : ReceivedMessage) : M unit :=
  if strict_eq_str postProcess "complete" then call (CompleteMessage msg)
  else if strict_eq_str postProcess "abandon" then call (AbandonMessage msg)
  else if strict_eq_str postProcess "deadLetter" then call (DeadLetterMessage msg)
  else ret tt.

(** [for (const msg of messages)] (lines 238-246). *)
Fixpoint post_loop (postProcess : Json) (messages : list ReceivedMessage)
  : M unit :=
  match messages with
  | [] => ret tt
  | msg :: rest => post_process postProcess msg ;;; post_loop postProcess rest
  end.

(** [subscriptionName ? sbClient.createReceiver(queueOrTopic, subscriptionName)
                      : sbClient.createReceiver(queueOrTopic)]
    (lines 228-230 and 234-236). *)
Definition createReceiver (queueOrTopic subscriptionName : Json) : M unit :=
  if truthy subscriptionName
  then call (CreateReceiver queueOrTopic (Some subscriptionName))
  else call (CreateReceiver queueOrTopic None).

(** The send branch (lines 179-220). *)
Definition send_branch (queueOrTopic : Json) (returnData : list Json)
  : M (list Json) :=
  let items := getInputData host in
  call (CreateSender queueOrTopic) ;;;
  returnData' <- send_loop (length items) 0 returnData ;;
  call SenderClose ;;;
  ret returnData'.

(** The receive branch (lines 222-257). *)
Definition receive_branch (queueOrTopic subscriptionName : Json)
    (returnData : list Json) : M (list Json) :=
  maxMessages <- param "maxMessages" 0 None ;;
  maxWaitTime <- param "maxWaitTime" 0 None ;;
  postProcess <- param "postProcess" 0 None ;;
  receiveMode <- param "receiveMode" 0 None ;;
  messages <-
    (if strict_eq_str receiveMode "peek" then
       createReceiver queueOrTopic subscriptionName ;;;
       messages <- fetch (PeekMessages maxMessages) ;;
       call ReceiverClose ;;;
       ret messages
     else
       createReceiver queueOrTopic subscriptionName ;;;
       messages <- fetch (ReceiveMessages maxMessages maxWaitTime) ;;
       post_loop postProcess messages ;;;
       call ReceiverClose ;;;
       ret messages) ;;
  ret (returnData ++ [item (receive_record queueOrTopic subscriptionName messages)]).

(** The error built in the outer [catch] clause (line 260): no options, so
    no item index. *)
Definition operation_error (operation : Json) (error : Exn) : Exn :=
  NodeOperationError
    ("Erro ao executar a operação '" ++ template_string operation ++ "': "
       ++ message error)%string
    None.

(** The body of the [try] block (lines 178-258). *)
Definition dispatch (operation queueOrTopic subscriptionName : Json)
    (returnData : list Json) : M (list Json) :=
  if strict_eq_str operation "send" then
    send_branch queueOrTopic returnData
  else if strict_eq_str operation "receive" then
    receive_branch queueOrTopic subscriptionName returnData
  else ret returnData.

(** [try { ... } catch (error) { throw new NodeOperationError(...) }]
    (lines 177-260). *)
Definition guarded (operation queueOrTopic subscriptionName : Json)
    (returnData : list Json) : M (list Json) :=
  try_catch
    (dispatch operation queueOrTopic subscriptionName returnData)
    (fun error => throw (operation_error operation error)).

(** [execute] (lines 165-266): the four common parameters and the client
    constructor come before the [try] statement; the client is closed in
    its [finally] clause. *)
Definition execute : M (list (list Json)) :=
  let returnData := [] in
  connectionString <- param "connectionString" 0 None ;;
  queueOrTopic <- param "queueOrTopic" 0 None ;;
  subscriptionName <- param "subscriptionName" 0 (Some (JStr "")) ;;
  operation <- param "operation" 0 None ;;
  call (NewClient connectionString) ;;;
  returnData' <-
    try_finally
      (guarded operation queueOrTopic subscriptionName returnData)
      (call ClientClose) ;;
  ret [returnData'].

(** A whole invocation starts from the empty history. *)
Definition run : Result (list (list Json)) * Trace := execute [].

End Execute.

Arguments run host sdk : simpl never.

(** ** Observations on a trace *)

(** A call that threw. *)
Definition is_fault (ev : Event) : bool :=
  match ev with
  | EvParam _ _ _ (Throw _) => true
  | EvCall _ (Throw _) => true
  | EvFetch _ (Throw _) => true
  | _ => false
  end.

(** A transmission, [sender.sendMessages(message)]. *)
Definition is_send (ev : Event) : bool :=
  match ev with
  | EvCall (SendMessages _) _ => true
  | _ => false
  end.

(** Faults other than a failed transmission. *)
Definition is_other_fault (ev : Event) : bool :=
  is_fault ev && negb (is_send ev).

(** No call of the invocation failed. *)
Definition no_fault (tr : Trace) : Prop := existsb is_fault tr = false.

(** The outcomes of the transmissions, in call order. *)
Definition send_outcomes (tr : Trace) : list (Result unit) :=
  flat_map (fun ev => match ev with
                      | EvCall (SendMessages _) r => [r]
                      | _ => []
                      end) tr.

(** The messages handed to the sender, in call order. *)
Definition sent_messages (tr : Trace) : list Json :=
  flat_map (fun ev => match ev with
                      | EvCall (SendMessages m) _ => [m]
                      | _ => []
                      end) tr.

(** The fetches with their outcomes, in call order. *)
Definition fetch_log (tr : Trace)
  : list (Fetch * Result (list ReceivedMessage)) :=
  flat_map (fun ev => match ev with
                      | EvFetch f r => [(f, r)]
                      | _ => []
                      end) tr.

(** A post-processing call. *)
Definition is_post_process (ev : Event) : bool :=
  match ev with
  | EvCall (CompleteMessage _) _ => true
  | EvCall (AbandonMessage _) _ => true
  | EvCall (DeadLetterMessage _) _ => true
  | _ => false
  end.

(** The post-processing calls, in call order. *)
Definition post_process_log (tr : Trace) : list Call :=
  flat_map (fun ev => match ev with
                      | EvCall (CompleteMessage m) _ => [CompleteMessage m]
                      | EvCall (AbandonMessage m) _ => [AbandonMessage m]
                      | EvCall (DeadLetterMessage m) _ => [DeadLetterMessage m]
                      | _ => []
                      end) tr.

(** Parameter resolutions [(name, itemIndex)], in call order. *)
Definition param_log (tr : Trace) : list (string * nat) :=
  flat_map (fun ev => match ev with
                      | EvParam name i _ _ => [(name, i)]
                      | _ => []
                      end) tr.

(** The SDK calls, fetches apart, without their outcomes. *)
Definition sdk_calls (tr : Trace) : list Call :=
  flat_map (fun ev => match ev with
                      | EvCall c _ => [c]
                      | _ => []
                      end) tr.

(** The number of events of a kind. *)
Definition count (p : Event -> bool) (tr : Trace) : nat :=
  length (filter p tr).

(** Handle events: a handle is opened by a call that succeeds, and a close
    call counts whether it succeeds or not. *)
Definition opens_client (ev : Event) : bool :=
  match ev with EvCall (NewClient _) (Ok _) => true | _ => false end.
Definition closes_client (ev : Event) : bool :=
  match ev with EvCall ClientClose _ => true | _ => false end.
Definition opens_sender (ev : Event) : bool :=
  match ev with EvCall (CreateSender _) (Ok _) => true | _ => false end.
Definition closes_sender (ev : Event) : bool :=
  match ev with EvCall SenderClose _ => true | _ => false end.
Definition opens_receiver (ev : Event) : bool :=
  match ev with EvCall (CreateReceiver _ _) (Ok _) => true | _ => false end.
Definition closes_receiver (ev : Event) : bool :=
  match ev with EvCall ReceiverClose _ => true | _ => false end.

(** The body that the host resolves for an input item. *)
Definition resolved_body (host : Host) (itemIndex : nat) : Json :=
  match getNodeParameter host "messageBody" itemIndex None with
  | Ok b => b
  | Throw _ => JNull
  end.

(** The output of a send in which nothing fails. *)
Definition send_output (host : Host) : list Json :=
  map (fun i => item (success_record i (resolved_body host i)))
      (seq 0 (length (getInputData host))).

(** The receivers opened: destination and subscription qualifier. *)
Definition receiver_log (tr : Trace) : list (Json * option Json) :=
  flat_map (fun ev => match ev with
                      | EvCall (CreateReceiver q s) _ => [(q, s)]
                      | _ => []
                      end) tr.

(** A post-processing call that failed. *)
Definition is_post_fault (ev : Event) : bool :=
  is_post_process ev && is_fault ev.


(** A trace without handle events, receivers and fetches. *)
Record quiet (evs : Trace) : Prop := mkQuiet {
  quiet_opens_client : count opens_client evs = 0;
  quiet_closes_client : count closes_client evs = 0;
  quiet_opens_sender : count opens_sender evs = 0;
  quiet_closes_sender : count closes_sender evs = 0;
  quiet_opens_receiver : count opens_receiver evs = 0;
  quiet_closes_receiver : count closes_receiver evs = 0;
  quiet_receiver_log : receiver_log evs = [];
  quiet_fetch_log : fetch_log evs = []
}.

(** ** The parts of an invocation *)

(** The history when the [try] block is entered. *)
Definition prelude (connectionString queueOrTopic subscriptionName operation : Json)
  : Trace :=
  [EvParam "connectionString" 0 None (Ok connectionString);
   EvParam "queueOrTopic" 0 None (Ok queueOrTopic);
   EvParam "subscriptionName" 0 (Some (JStr "")) (Ok subscriptionName);
   EvParam "operation" 0 None (Ok operation);
   EvCall (NewClient connectionString) (Ok tt)].

(** The traces of the invocations that fail before the [try] block. *)
Inductive early_exit : Exn -> Trace -> Prop :=
| exit_connectionString e :
    early_exit e [EvParam "connectionString" 0 None (Throw e)]
| exit_queueOrTopic cs e :
    early_exit e [EvParam "connectionString" 0 None (Ok cs);
                  EvParam "queueOrTopic" 0 None (Throw e)]
| exit_subscriptionName cs q e :
    early_exit e [EvParam "connectionString" 0 None (Ok cs);
                  EvParam "queueOrTopic" 0 None (Ok q);
                  EvParam "subscriptionName" 0 (Some (JStr "")) (Throw e)]
| exit_operation cs q sub e :
    early_exit e [EvParam "connectionString" 0 None (Ok cs);
                  EvParam "queueOrTopic" 0 None (Ok q);
                  EvParam "subscriptionName" 0 (Some (JStr "")) (Ok sub);
                  EvParam "operation" 0 None (Throw e)]
| exit_client cs q sub op e :
    early_exit e [EvParam "connectionString" 0 None (Ok cs);
                  EvParam "queueOrTopic" 0 None (Ok q);
                  EvParam "subscriptionName" 0 (Some (JStr "")) (Ok sub);
                  EvParam "operation" 0 None (Ok op);
                  EvCall (NewClient cs) (Throw e)].

(** The completion of the whole [try]/[catch]/[finally] statement followed
    by [return [returnData]], from the completion [r] of the guarded block
    and the outcome [rc] of closing the client. *)
Definition completion (r : Result (list Json)) (rc : Result unit)
  : Result (list (list Json)) :=
  match rc with
  | Throw e' => Throw e'
  | Ok _ => match r with
            | Ok returnData => Ok [returnData]
            | Throw e => Throw e
            end
  end.

(** What the outer [catch] clause makes of the completion of the [try]
    block. *)
Definition caught (operation : Json) (r : Result (list Json))
  : Result (list Json) :=
  match r with
  | Ok returnData => Ok returnData
  | Throw e => Throw (operation_error operation e)
  end.

(** The [catch] clause of one turn of the send loop (lines 203-216). *)
Definition on_item_error (host : Host) (i : nat) (rd : list Json) (e : Exn)
  : Result (list Json) :=
  if continueOnFail host
  then Ok (rd ++ [item (failure_record i (message e))])
  else Throw (NodeOperationError (message e) (Some i)).

(** The record that item [i] leaves when its transmission ends in [o]. *)
Definition item_record (host : Host) (i : nat) (o : Result unit) : Json :=
  match o with
  | Ok _ => item (success_record i (resolved_body host i))
  | Throw e => item (failure_record i (message e))
  end.

(** The events of the turns [i .. i+n-1] of the send loop. *)
Definition send_loop_event (i n : nat) (ev : Event) : Prop :=
  match ev with
  | EvParam name j fb _ => name = "messageBody" /\ fb = None /\ i <= j < i + n
  | EvCall (SendMessages _) _ => True
  | _ => False
  end.

(** The constructor of the SDK call that [postProcess] selects. *)
Definition configured_action (postProcess : string)
  : option (ReceivedMessage -> Call) :=
  if String.eqb postProcess "complete" then Some CompleteMessage
  else if String.eqb postProcess "abandon" then Some AbandonMessage
  else if String.eqb postProcess "deadLetter" then Some DeadLetterMessage
  else None.

(** The names of the receive parameters, in resolution order. *)
Definition receive_params : list string :=
  ["maxMessages"; "maxWaitTime"; "postProcess"; "receiveMode"].

(** The qualification of the receiver that the receive branch opens. *)
Definition receiver_of (queueOrTopic subscriptionName : Json)
  : Json * option Json :=
  (queueOrTopic,
   if truthy subscriptionName then Some subscriptionName else None).

(** The parameters resolved before the [try] block, with their index. *)
Definition common_params : list (string * nat) :=
  [("connectionString", 0); ("queueOrTopic", 0);
   ("subscriptionName", 0); ("operation", 0)].

(** The resolutions of the bodies of [n] input items. *)
Definition body_params (n : nat) : list (string * nat) :=
  map (fun i => ("messageBody", i)) (seq 0 n).

(** The resolutions of an invocation that runs to its end, in order. *)
Definition resolutions (host : Host) : list (string * nat) :=
  common_params ++
  match getNodeParameter host "operation" 0 None with
  | Ok op =>
      if strict_eq_str op "send"
      then body_params (length (getInputData host))
      else if strict_eq_str op "receive"
           then map (fun name => (name, 0)) receive_params
           else []
  | Throw _ => []
  end.

(** Two hosts that differ at most in the per-item values of parameters
    other than [messageBody], and in the content of the input items. *)
Definition agree (host1 host2 : Host) : Prop :=
  continueOnFail host1 = continueOnFail host2 /\
  length (getInputData host1) = length (getInputData host2) /\
  (forall name fb,
     getNodeParameter host1 name 0 fb = getNodeParameter host2 name 0 fb) /\
  (forall i fb,
     getNodeParameter host1 "messageBody" i fb
     = getNodeParameter host2 "messageBody" i fb).

(** The bus [sdk], except that closing the client succeeds. *)
Definition with_release_ok (sdk : Sdk) : Sdk :=
  mkSdk (fun h c => match c with
                    | ClientClose => Ok tt
                    | _ => sdk_call sdk h c
                    end)
        (sdk_fetch sdk).

(** An invocation on which a failed release does not hide the error of the
    invocation: when it fails with [e] (what execute throws if the release
    succeeds) and the release fails with a different [e'], execute throws
    [e]. *)
Definition original_error_wins (host : Host) (sdk : Sdk) : Prop :=
  forall e e',
    fst (run host (with_release_ok sdk)) = Throw e ->
    In (EvCall ClientClose (Throw e')) (snd (run host sdk)) ->
    e <> e' ->
    fst (run host sdk) = Throw e.

(** ** Fixtures: concrete hosts and buses *)

Module Fixtures.

Definition parameters (operation : string) (subscription : string)
    (name : string) (itemIndex : nat) (fallback : option Json) : Result Json :=
  if String.eqb name "connectionString" then Ok (JStr "Endpoint=sb://bus/")
  else if String.eqb name "queueOrTopic" then Ok (JStr "orders")
  else if String.eqb name "subscriptionName" then Ok (JStr subscription)
  else if String.eqb name "operation" then Ok (JStr operation)
  else if String.eqb name "messageBody"
       then Ok (JObj [("n", JNum (Z.of_nat itemIndex))])
  else if String.eqb name "maxMessages" then Ok (JNum 5)
  else if String.eqb name "maxWaitTime" then Ok (JNum 100)
  else if String.eqb name "postProcess" then Ok (JStr "complete")
  else if String.eqb name "receiveMode" then Ok (JStr "receiveAndComplete")
  else match fallback with
       | Some v => Ok v
       | None => Throw (Error "Could not get parameter")
       end.

Definition host_of (operation subscription : string) (items : nat)
    (continue : bool) : Host :=
  mkHost (parameters operation subscription) (repeat (JObj []) items) continue.

Definition inbox : list ReceivedMessage :=
  [mkReceived (JStr "a") 1; mkReceived (JStr "b") 2].

(** A bus on which every call succeeds; a fetch returns [messages]. *)
Definition bus_ok (messages : list ReceivedMessage) : Sdk :=
  mkSdk (fun _ _ => Ok tt) (fun _ _ => Ok messages).

(** A bus whose sender fails on its [(k+1)]-th transmission. *)
Definition bus_send_fails (k : nat) (e : Exn) : Sdk :=
  mkSdk (fun h c =>
           match c with
           | SendMessages _ =>
               if Nat.eqb (length (send_outcomes h)) k then Throw e else Ok tt
           | _ => Ok tt
           end)
        (fun _ _ => Ok []).

(** The same, and closing the client fails too. *)
Definition bus_send_and_close_fail (k : nat) (e e' : Exn) : Sdk :=
  mkSdk (fun h c =>
           match c with
           | SendMessages _ =>
               if Nat.eqb (length (send_outcomes h)) k then Throw e else Ok tt
           | ClientClose => Throw e'
           | _ => Ok tt
           end)
        (fun _ _ => Ok []).

(** A bus on which completing a message fails. *)
Definition bus_complete_fails (messages : list ReceivedMessage) (e : Exn) : Sdk :=
  mkSdk (fun _ c =>
           match c with
           | CompleteMessage _ => Throw e
           | _ => Ok tt
           end)
        (fun _ _ => Ok messages).

(** A host that, unlike [host_of], gives other values to every parameter
    but [messageBody] at the item indices above 0. *)
Definition host_varying (operation subscription : string) (items : nat)
    (continue : bool) : Host :=
  mkHost (fun name i fb =>
            if Nat.eqb i 0 then parameters operation subscription name i fb
            else if String.eqb name "messageBody"
                 then parameters operation subscription name i fb
                 else Ok (JStr "other"))
         (repeat (JObj [("k", JNum 1)]) items) continue.

End Fixtures.

Import Fixtures.

(** ** Further observations *)

(** The error of a call that threw. *)
Definition fault_error (ev : Event) : option Exn :=
  match ev with
  | EvParam _ _ _ (Throw e) => Some e
  | EvCall _ (Throw e) => Some e
  | EvFetch _ (Throw e) => Some e
  | _ => None
  end.

(** A call made before the [try] block (lines 169-175): the resolution of
    one of the four common parameters, at index 0, or the construction of
    the client. *)
Definition is_entry_call (ev : Event) : bool :=
  match ev with
  | EvParam name 0 _ _ =>
      String.eqb name "connectionString" || String.eqb name "queueOrTopic"
      || String.eqb name "subscriptionName" || String.eqb name "operation"
  | EvCall (NewClient _) _ => true
  | _ => false
  end.

(** A failure inside one turn of the send loop: the resolution of the body
    or the transmission. *)
Definition is_item_fault (ev : Event) : bool :=
  match ev with
  | EvParam name _ _ (Throw _) => String.eqb name "messageBody"
  | EvCall (SendMessages _) (Throw _) => true
  | _ => false
  end.

(** A trace whose last event is a call that threw [e0]. *)
Definition ends_with_fault (evs : Trace) (e0 : Exn) : Prop :=
  exists pre ev, evs = pre ++ [ev] /\ fault_error ev = Some e0.

(** A call on the sender side, a call on the receiver side. *)
Definition is_sender_call (ev : Event) : bool :=
  match ev with
  | EvCall (CreateSender _) _ => true
  | EvCall (SendMessages _) _ => true
  | EvCall SenderClose _ => true
  | _ => false
  end.

Definition is_receiver_call (ev : Event) : bool :=
  match ev with
  | EvCall (CreateReceiver _ _) _ => true
  | EvCall (CompleteMessage _) _ => true
  | EvCall (AbandonMessage _) _ => true
  | EvCall (DeadLetterMessage _) _ => true
  | EvCall ReceiverClose _ => true
  | EvFetch _ _ => true
  | _ => false
  end.

(** ** The life of the handles

    What the SDK expects of its caller: a sender or receiver is created on
    an open client, used only between its creation and its close, and
    nothing is called on a client that is closed or was never opened. *)

Inductive HandleState : Type := Unopened | Opened | Closed.

Record Handles : Type := mkHandles {
  client_state : HandleState;
  sender_state : HandleState;
  receiver_state : HandleState
}.

Definition is_opened (s : HandleState) : bool :=
  match s with Opened => true | _ => false end.

Definition is_unopened (s : HandleState) : bool :=
  match s with Unopened => true | _ => false end.

(** The state that a creation leaves: opened when it succeeded. *)
Definition after_open {A} (r : Result A) : HandleState :=
  match r with Ok _ => Opened | Throw _ => Unopened end.

(** One event on the handles; [None] when the call breaks the discipline. *)
Definition handle_step (s : Handles) (ev : Event) : option Handles :=
  match ev with
  | EvParam _ _ _ _ => Some s
  | EvCall (NewClient _) r =>
      if is_unopened (client_state s)
      then Some (mkHandles (after_open r) (sender_state s) (receiver_state s))
      else None
  | EvCall (CreateSender _) r =>
      if is_opened (client_state s) && is_unopened (sender_state s)
      then Some (mkHandles (client_state s) (after_open r) (receiver_state s))
      else None
  | EvCall (SendMessages _) _ =>
      if is_opened (client_state s) && is_opened (sender_state s)
      then Some s else None
  | EvCall SenderClose _ =>
      if is_opened (client_state s) && is_opened (sender_state s)
      then Some (mkHandles (client_state s) Closed (receiver_state s))
      else None
  | EvCall (CreateReceiver _ _) r =>
      if is_opened (client_state s) && is_unopened (receiver_state s)
      then Some (mkHandles (client_state s) (sender_state s) (after_open r))
      else None
  | EvCall (CompleteMessage _) _
  | EvCall (AbandonMessage _) _
  | EvCall (DeadLetterMessage _) _
  | EvFetch _ _ =>
      if is_opened (client_state s) && is_opened (receiver_state s)
      then Some s else None
  | EvCall ReceiverClose _ =>
      if is_opened (client_state s) && is_opened (receiver_state s)
      then Some (mkHandles (client_state s) (sender_state s) Closed)
      else None
  | EvCall ClientClose _ =>
      if is_opened (client_state s)
      then Some (mkHandles Closed (sender_state s) (receiver_state s))
      else None
  end.

Fixpoint handle_steps (s : Handles) (tr : Trace) : option Handles :=
  match tr with
  | [] => Some s
  | ev :: rest =>
      match handle_step s ev with
      | Some s' => handle_steps s' rest
      | None => None
      end
  end.

Definition no_handles : Handles := mkHandles Unopened Unopened Unopened.

(** A failure that ends the invocation: any call that threw, except a
    failure inside a turn of the send loop when continue-on-failure is on. *)
Definition is_fatal (host : Host) (ev : Event) : bool :=
  is_fault ev && (negb (is_item_fault ev) || negb (continueOnFail host)).

(** What one turn of the send loop leaves when the loop goes on after it:
    [turn] are the events of the turn of item [j], and [rec] the output
    item that it appends.  Either the body is resolved and transmitted, and
    the item is [{json: {success: true, itemIndex: j, messageSent: body}}];
    or, only with continue-on-failure, the transmission of that body or the
    resolution of the body throws [e], nothing else is called in the turn,
    and the item is [{json: {success: false, itemIndex: j, error: message
    of e}}]. *)
Definition turn_record (host : Host) (j : nat) (turn : Trace) (rec : Json)
  : Prop :=
  (exists b,
     turn = [EvParam "messageBody" j None (Ok b);
             EvCall (SendMessages (JObj [("body", b)])) (Ok tt)] /\
     rec = JObj [("json",
                  JObj [("success", JBool true);
                        ("itemIndex", JNum (Z.of_nat j));
                        ("messageSent", b)])]) \/
  (continueOnFail host = true /\
   exists e,
     ((exists b,
         turn = [EvParam "messageBody" j None (Ok b);
                 EvCall (SendMessages (JObj [("body", b)])) (Throw e)]) \/
      turn = [EvParam "messageBody" j None (Throw e)]) /\
     rec = JObj [("json",
                  JObj [("success", JBool false);
                        ("itemIndex", JNum (Z.of_nat j));
                        ("error", JStr (message e))])]).

(** The events of a turn of the send loop in which nothing fails: the body
    of the item is resolved, then transmitted. *)
Definition turn_events (host : Host) (i : nat) : Trace :=
  [EvParam "messageBody" i None (Ok (resolved_body host i));
   EvCall (SendMessages (JObj [("body", resolved_body host i)])) (Ok tt)].

(** The fetch that the receive branch makes. *)
Definition fetch_of (receiveMode maxMessages maxWaitTime : Json) : Fetch :=
  if strict_eq_str receiveMode "peek"
  then PeekMessages maxMessages
  else ReceiveMessages maxMessages maxWaitTime.



(** The failures after which the sender, or the receiver, is not closed: a
    failure inside a turn of the send loop without continue-on-failure; a
    fetch or a post-processing call that fails. *)
Definition aborts_send (host : Host) (ev : Event) : bool :=
  negb (continueOnFail host) && is_item_fault ev.

Definition aborts_receive (ev : Event) : bool :=
  match ev with
  | EvFetch _ (Throw _) => true
  | _ => is_post_fault ev
  end.

(** ** The node description

    The [description] of the node (lines 14-163): what the editor shows and
    what the host can resolve.  An optional field that a property leaves
    out is [false], [[]] or [None]. *)

Module Schema.

Inductive PropertyType : Set := TString | TOptions | TJson | TNumber.

Record Property : Set := mkProperty {
  displayName : string;
  name : string;
  type : PropertyType;
  default : Json;
  required : bool;
  noDataExpression : bool;
  (** [options]: the [name] and the [value] of every choice. *)
  options : list (string * string);
  (** [displayOptions.show.operation] *)
  show_operation : option (list string);
  description : string
}.

Definition properties : list Property :=
  [ mkProperty "Connection String" "connectionString" TString (JStr "")
      true false [] None
      "Connection string para se autenticar no Azure Service Bus";
    mkProperty "Queue or Topic Name" "queueOrTopic" TString (JStr "")
      true false [] None
      "Nome da fila (queue) ou do tópico (topic) no Azure Service Bus";
    mkProperty "Subscription Name (Se for Tópico)" "subscriptionName" TString
      (JStr "") false false [] None
      "Nome da Subscription (caso esteja usando tópicos). Deixe vazio se for fila.";
    mkProperty "Operation" "operation" TOptions (JStr "send")
      false true [("Send", "send"); ("Receive", "receive")] None
      "Escolha a operação: enviar ou receber mensagens";
    mkProperty "Message Body (JSON)" "messageBody" TJson (JObj [])
      false false [] (Some ["send"])
      "Conteúdo da mensagem a ser enviada em formato JSON";
    mkProperty "Maximum Number of Messages" "maxMessages" TNumber (JNum 1)
      false false [] (Some ["receive"])
      "Quantidade máxima de mensagens para receber em uma única requisição";
    mkProperty "Max Wait Time (Ms)" "maxWaitTime" TNumber (JNum 5000)
      false false [] (Some ["receive"])
      "Tempo máximo (em milissegundos) para aguardar mensagens antes de encerrar a requisição";
    mkProperty "Post Processing Action" "postProcess" TOptions (JStr "complete")
      false false
      [("Complete (Remove Message)", "complete");
       ("Abandon (Return to Queue)", "abandon");
       ("Dead-Letter", "deadLetter")]
      (Some ["receive"])
      "What to do with the message after it is received";
    mkProperty "Receive Mode" "receiveMode" TOptions (JStr "receiveAndComplete")
      false false
      [("Receive And Complete", "receiveAndComplete");
       ("Peek (Preview Only)", "peek")]
      (Some ["receive"])
      "Whether to actually remove messages from the queue or just peek at them" ].

(** [inputs] and [outputs] (lines 24-25). *)
Definition inputs : list string := ["main"].
Definition outputs : list string := ["main"].

(** The property of a name, if the description declares one. *)
Definition lookup (n : string) : option Property :=
  find (fun p => String.eqb (name p) n) properties.

(** The values that the description offers for an options property. *)
Definition values (n : string) : list string :=
  match lookup n with
  | Some p => map snd (options p)
  | None => []
  end.

(** Whether the editor shows a property when [operation] has the given
    value: a property without display options is always shown, and one with
    [show.operation] when the value is among those listed. *)
Definition displayed (p : Property) (operation : Json) : bool :=
  match show_operation p with
  | None => true
  | Some vs => existsb (strict_eq_str operation) vs
  end.

End Schema.

(** An event that resolves a parameter resolves a declared one, with no
    fallback or with the declared default as fallback. *)
Definition declared_event (ev : Event) : Prop :=
  match ev with
  | EvParam name _ fb _ =>
      exists p, Schema.lookup name = Some p /\
                (fb = None \/ fb = Some (Schema.default p))
  | _ => True
  end.

(** ** Further fixtures *)

Module MoreFixtures.

(** A receiving host with the given receive mode and post-processing
    action. *)
Definition host_receiving (mode action : string) : Host :=
  mkHost (fun name i fb =>
            if String.eqb name "receiveMode" then Ok (JStr mode)
            else if String.eqb name "postProcess" then Ok (JStr action)
            else parameters "receive" "" name i fb)
         [] false.

(** A bus whose client cannot be constructed. *)
Definition bus_down (e : Exn) : Sdk :=
  mkSdk (fun _ c =>
           match c with
           | NewClient _ => Throw e
           | _ => Ok tt
           end)
        (fun _ _ => Ok []).

End MoreFixtures.

Import MoreFixtures.

(** * Facts *)

(** ** Reasoning about computations *)

Section MonadFacts.

Context {A B : Type}.

Lemma ret_inv (a : A) h r evs :
  ret a h = (r, evs) -> r = Ok a /\ evs = [].
Proof. unfold ret. intros H. inversion H. auto. Qed.

Lemma throw_inv (e : Exn) h (r : Result A) evs :
  throw e h = (r, evs) -> r = Throw e /\ evs = [].
Proof. unfold throw. intros H. inversion H. auto. Qed.

Lemma bind_inv (m : M A) (f : A -> M B) h r evs :
  bind m f h = (r, evs) ->
  (exists e, m h = (Throw e, evs) /\ r = Throw e) \/
  (exists a evs1 evs2,
      m h = (Ok a, evs1) /\ f a (h ++ evs1) = (r, evs2) /\ evs = evs1 ++ evs2).
Proof.
  unfold bind. destruct (m h) as [[a|e] evs1].
  - destruct (f a (h ++ evs1)) as [r2 evs2] eqn:Ef. intros H. inversion H.
    subst. right. exists a, evs1, evs2. auto.
  - intros H. inversion H. subst. left. exists e. auto.
Qed.

Lemma try_catch_inv (m : M A) (handler : Exn -> M A) h r evs :
  try_catch m handler h = (r, evs) ->
  (exists a, m h = (Ok a, evs) /\ r = Ok a) \/
  (exists e evs1 evs2,
      m h = (Throw e, evs1) /\ handler e (h ++ evs1) = (r, evs2) /\
      evs = evs1 ++ evs2).
Proof.
  unfold try_catch. destruct (m h) as [[a|e] evs1].
  - intros H. inversion H. subst. left. exists a. auto.
  - destruct (handler e (h ++ evs1)) as [r2 evs2] eqn:Eh. intros H.
    inversion H. subst. right. exists e, evs1, evs2. auto.
Qed.

Lemma try_finally_inv (m : M A) (fin : M unit) h r evs :
  try_finally m fin h = (r, evs) ->
  exists r1 evs1 r2 evs2,
    m h = (r1, evs1) /\ fin (h ++ evs1) = (r2, evs2) /\ evs = evs1 ++ evs2 /\
    r = match r2 with Ok _ => r1 | Throw e' => Throw e' end.
Proof.
  unfold try_finally. destruct (m h) as [r1 evs1].
  destruct (fin (h ++ evs1)) as [[u|e'] evs2] eqn:Ef; intros H; inversion H.
  - exists r1, evs1, (Ok u), evs2. repeat split; congruence.
  - exists r1, evs1, (Throw e'), evs2. repeat split; congruence.
Qed.

End MonadFacts.

Section PrimitiveFacts.

Variable host : Host.
Variable sdk : Sdk.

Lemma param_inv name i fb h r evs :
  param host name i fb h = (r, evs) ->
  getNodeParameter host name i fb = r /\ evs = [EvParam name i fb r].
Proof. unfold param. intros H. inversion H. auto. Qed.

Lemma call_inv c h r evs :
  call sdk c h = (r, evs) -> sdk_call sdk h c = r /\ evs = [EvCall c r].
Proof. unfold call. intros H. inversion H. auto. Qed.

Lemma fetch_inv f h r evs :
  fetch sdk f h = (r, evs) -> sdk_fetch sdk h f = r /\ evs = [EvFetch f r].
Proof. unfold fetch. intros H. inversion H. auto. Qed.

End PrimitiveFacts.

(** Inversion of a hypothesis [m h = (r, evs)] along the structure of [m]. *)
Ltac minv_step :=
  match goal with
  | H : ret _ _ = (_, _) |- _ =>
      apply ret_inv in H; destruct H as [? ?]
  | H : throw _ _ = (_, _) |- _ =>
      apply throw_inv in H; destruct H as [? ?]
  | H : param _ _ _ _ _ = (_, _) |- _ =>
      apply param_inv in H; destruct H as [? ?]
  | H : call _ _ _ = (_, _) |- _ =>
      apply call_inv in H; destruct H as [? ?]
  | H : fetch _ _ _ = (_, _) |- _ =>
      apply fetch_inv in H; destruct H as [? ?]
  | H : bind _ _ _ = (_, _) |- _ =>
      apply bind_inv in H;
      destruct H as [(? & ? & ?) | (? & ? & ? & ? & ? & ?)]
  | H : try_catch _ _ _ = (_, _) |- _ =>
      apply try_catch_inv in H;
      destruct H as [(? & ? & ?) | (? & ? & ? & ? & ? & ?)]
  | H : try_finally _ _ _ = (_, _) |- _ =>
      apply try_finally_inv in H;
      destruct H as (? & ? & ? & ? & ? & ? & ? & ?)
  end.

(** Simplifies equations between outcomes. *)
Ltac res_inj :=
  repeat match goal with
    | H : Ok _ = Ok _ |- _ => injection H as H
    | H : Throw _ = Throw _ |- _ => injection H as H
    | H : Ok _ = Throw _ |- _ => discriminate H
    | H : Throw _ = Ok _ |- _ => discriminate H
    | u : unit |- _ => destruct u
    end.

Ltac minv := repeat (minv_step; res_inj; subst).

(** The same, also splitting on the tests of the conditionals. *)
Ltac minv_if :=
  repeat (first
    [ minv_step
    | match goal with
      | H : (if ?c then _ else _) _ = (_, _) |- _ => destruct c eqn:?
      end ]; res_inj; subst).

(** ** The shape of an invocation *)

Section Shape.

Variable host : Host.
Variable sdk : Sdk.

(** An invocation either fails before the [try] block, or runs the guarded
    block and then closes the client, once, whatever the block did. *)
Lemma run_inv r tr :
  run host sdk = (r, tr) ->
  (exists e, r = Throw e /\ early_exit e tr) \/
  (exists cs q sub op r1 evs rc,
      getNodeParameter host "connectionString" 0 None = Ok cs /\
      getNodeParameter host "queueOrTopic" 0 None = Ok q /\
      getNodeParameter host "subscriptionName" 0 (Some (JStr "")) = Ok sub /\
      getNodeParameter host "operation" 0 None = Ok op /\
      guarded host sdk op q sub [] (prelude cs q sub op) = (r1, evs) /\
      sdk_call sdk (prelude cs q sub op ++ evs) ClientClose = rc /\
      tr = prelude cs q sub op ++ evs ++ [EvCall ClientClose rc] /\
      r = completion r1 rc).
Proof.
  unfold run, execute. intros H.
  repeat (minv_step; res_inj; subst; simpl in *);
    try (left; eexists; split; [reflexivity | constructor]).
  all: right; do 7 eexists;
    (split; [eassumption|]); (split; [eassumption|]);
    (split; [eassumption|]); (split; [eassumption|]);
    (split; [eassumption|]); (split; [reflexivity|]);
    (split; [rewrite ?app_nil_r; reflexivity|]).
  all: unfold completion;
    match goal with
    | H : _ = match ?c with _ => _ end |- _ => destruct c
    end; subst; auto; congruence.
Qed.

(** The outer [catch] clause adds no event; it replaces the error. *)
Lemma guarded_inv op q sub rd h r evs :
  guarded host sdk op q sub rd h = (r, evs) ->
  exists r0, dispatch host sdk op q sub rd h = (r0, evs) /\ r = caught op r0.
Proof.
  unfold guarded. intros H. minv.
  - eexists; split; [eassumption | reflexivity].
  - rewrite app_nil_r. eexists; split; [eassumption | reflexivity].
Qed.

End Shape.

(** ** Counting events *)

Lemma count_app p (a b : Trace) : count p (a ++ b) = count p a + count p b.
Proof. unfold count. rewrite filter_app, length_app. reflexivity. Qed.

Lemma count_none (Q : Event -> Prop) p (tr : Trace) :
  Forall Q tr -> (forall ev, Q ev -> p ev = false) -> count p tr = 0.
Proof.
  intros H Hp. unfold count. induction H as [|ev tr Hev _ IH]; simpl.
  - reflexivity.
  - rewrite (Hp ev Hev). exact IH.
Qed.

Lemma flat_map_none {X} (Q : Event -> Prop) (f : Event -> list X) (tr : Trace) :
  Forall Q tr -> (forall ev, Q ev -> f ev = []) -> flat_map f tr = [].
Proof.
  intros H Hf. induction H as [|ev tr Hev _ IH]; simpl.
  - reflexivity.
  - rewrite (Hf ev Hev). exact IH.
Qed.

Lemma count_cons p ev (tr : Trace) :
  count p (ev :: tr) = (if p ev then 1 else 0) + count p tr.
Proof. unfold count. simpl. destruct (p ev); reflexivity. Qed.

Lemma count_nil p : count p [] = 0.
Proof. reflexivity. Qed.

Lemma count_zero_not_in p (tr : Trace) ev :
  count p tr = 0 -> In ev tr -> p ev = false.
Proof.
  unfold count. induction tr as [|a tr IH]; simpl; [contradiction|].
  destruct (p a) eqn:Ha; simpl; [discriminate|].
  intros H [<-|Hin]; auto.
Qed.

(** ** Observations distribute over concatenation *)

Lemma param_log_app a b : param_log (a ++ b) = param_log a ++ param_log b.
Proof. apply flat_map_app. Qed.

Lemma fetch_log_app a b : fetch_log (a ++ b) = fetch_log a ++ fetch_log b.
Proof. apply flat_map_app. Qed.

Lemma send_outcomes_app a b :
  send_outcomes (a ++ b) = send_outcomes a ++ send_outcomes b.
Proof. apply flat_map_app. Qed.

Lemma sent_messages_app a b :
  sent_messages (a ++ b) = sent_messages a ++ sent_messages b.
Proof. apply flat_map_app. Qed.

Lemma post_process_log_app a b :
  post_process_log (a ++ b) = post_process_log a ++ post_process_log b.
Proof. apply flat_map_app. Qed.

Lemma sdk_calls_app a b : sdk_calls (a ++ b) = sdk_calls a ++ sdk_calls b.
Proof. apply flat_map_app. Qed.

Lemma receiver_log_app a b :
  receiver_log (a ++ b) = receiver_log a ++ receiver_log b.
Proof. apply flat_map_app. Qed.

Lemma early_exit_fault e tr : early_exit e tr -> existsb is_fault tr = true.
Proof. intros H. destruct H; reflexivity. Qed.

(** Splits a hypothesis [existsb p (a ++ b ++ ...) = false]. *)
Ltac split_nf NF :=
  repeat (rewrite existsb_app in NF; simpl in NF);
  rewrite ?orb_true_r, ?orb_false_r in NF; simpl in NF;
  try discriminate NF.


Lemma early_exit_quiet e tr :
  early_exit e tr -> fetch_log tr = [] /\ post_process_log tr = [].
Proof. intros H. destruct H; split; reflexivity. Qed.

(** Closes a goal on the events of a loop from the class [HF] of its
    events. *)
Ltac by_events HF :=
  first [ eapply count_none; [exact HF|]
        | eapply flat_map_none; [exact HF|] ];
  intros [? ? ? ?|[] ?|? ?]; simpl; intros; try reflexivity;
  try contradiction; try discriminate.

(** ** The send loop *)

Section SendItem.

Variable host : Host.
Variable sdk : Sdk.

Lemma send_loop_event_weaken i n i' n' ev :
  i' <= i -> i + n <= i' + n' ->
  send_loop_event i n ev -> send_loop_event i' n' ev.
Proof.
  intros Hi Hn. destruct ev as [name j fb r|c r|f r]; simpl; auto.
  intros (? & ? & ?). repeat split; auto; lia.
Qed.

(** One turn either transmits, or fails to transmit, or fails to resolve the
    body; the two failures end in the [catch] clause. *)
Lemma send_item_cases i rd h r evs :
  send_item host sdk i rd h = (r, evs) ->
  (exists b,
      getNodeParameter host "messageBody" i None = Ok b /\
      evs = [EvParam "messageBody" i None (Ok b);
             EvCall (SendMessages (JObj [("body", b)])) (Ok tt)] /\
      r = Ok (rd ++ [item (success_record i b)])) \/
  (exists b e,
      getNodeParameter host "messageBody" i None = Ok b /\
      evs = [EvParam "messageBody" i None (Ok b);
             EvCall (SendMessages (JObj [("body", b)])) (Throw e)] /\
      r = on_item_error host i rd e) \/
  (exists e,
      getNodeParameter host "messageBody" i None = Throw e /\
      evs = [EvParam "messageBody" i None (Throw e)] /\
      r = on_item_error host i rd e).
Proof.
  unfold send_item, on_item_error. intros H. minv_if.
  all: repeat match goal with
         | H : getNodeParameter _ _ _ _ = _ |- _ => rewrite H
         end.
  all: simpl; eauto 10.
Qed.

End SendItem.

(** The three ways in which one turn of the send loop ends. *)
Ltac item_cases H :=
  apply send_item_cases in H; unfold on_item_error in H;
  destruct H as [(?b & ?Hb & ?Hevs & ?Hr)
                | [(?b & ?e & ?Hb & ?Hevs & ?Hr) | (?e & ?Hb & ?Hevs & ?Hr)]].

Section SendLoop.

Variable host : Host.
Variable sdk : Sdk.

Lemma send_item_events i rd h r evs :
  send_item host sdk i rd h = (r, evs) -> Forall (send_loop_event i 1) evs.
Proof.
  intros H. item_cases H; subst; repeat constructor; lia.
Qed.

Lemma send_loop_events n i rd h r evs :
  send_loop host sdk n i rd h = (r, evs) -> Forall (send_loop_event i n) evs.
Proof.
  revert i rd h r evs.
  induction n as [|n IH]; intros i rd h r evs H; simpl in H; minv.
  - constructor.
  - apply send_item_events in H. eapply Forall_impl; [|exact H].
    intros ev. apply send_loop_event_weaken; lia.
  - apply Forall_app. split.
    + apply send_item_events in H. eapply Forall_impl; [|exact H].
      intros ev. apply send_loop_event_weaken; lia.
    + apply IH in H0. eapply Forall_impl; [|exact H0].
      intros ev. apply send_loop_event_weaken; lia.
Qed.

(** The loop resolves the bodies of consecutive items, each once. *)
Lemma send_loop_param_log n i rd h r evs :
  send_loop host sdk n i rd h = (r, evs) ->
  exists m, m <= n /\
            param_log evs = map (fun j => ("messageBody", j)) (seq i m) /\
            (forall rd', r = Ok rd' -> m = n).
Proof.
  revert i rd h r evs.
  induction n as [|n IH]; intros i rd h r evs H; simpl in H; minv.
  - exists 0. repeat split; auto.
  - exists 1. split; [lia|]. split; [|discriminate].
    item_cases H; subst; reflexivity.
  - destruct (IH _ _ _ _ _ H0) as (m & Hm & Hlog & Hok).
    exists (S m). split; [lia|]. split.
    + unfold param_log in *. rewrite flat_map_app, Hlog.
      item_cases H; subst; reflexivity.
    + intros rd' Hr. f_equal. eauto.
Qed.

(** The loop throws only when a resolution or a transmission failed. *)
Lemma send_loop_throws n i rd h e evs :
  send_loop host sdk n i rd h = (Throw e, evs) -> existsb is_fault evs = true.
Proof.
  revert i rd h evs.
  induction n as [|n IH]; intros i rd h evs H; simpl in H; minv.
  - item_cases H; subst; [discriminate | reflexivity | reflexivity].
  - rewrite existsb_app. apply IH in H0. rewrite H0. apply orb_true_r.
Qed.

(** Without any failure every item leaves its success record. *)
Lemma send_loop_no_fault n i rd h r evs :
  send_loop host sdk n i rd h = (r, evs) ->
  existsb is_fault evs = false ->
  r = Ok (rd ++ map (fun j => item (success_record j (resolved_body host j)))
                    (seq i n)) /\
  (forall j, i <= j < i + n ->
     getNodeParameter host "messageBody" j None = Ok (resolved_body host j)) /\
  sent_messages evs =
    map (fun j => JObj [("body", resolved_body host j)]) (seq i n).
Proof.
  revert i rd h r evs.
  induction n as [|n IH]; intros i rd h r evs H NF; simpl in H; minv.
  - simpl. rewrite app_nil_r. repeat split; auto. intros; lia.
  - item_cases H; subst; discriminate.
  - rewrite existsb_app in NF. apply orb_false_elim in NF.
    destruct NF as [NF1 NF2].
    item_cases H; subst; try discriminate. injection Hr as ->.
    destruct (IH _ _ _ _ _ H0 NF2) as (-> & Hres & Hsent).
    assert (Hi : resolved_body host i = b)
      by (unfold resolved_body; rewrite Hb; reflexivity).
    repeat split.
    + simpl. rewrite Hi, <- app_assoc. reflexivity.
    + intros j Hj. destruct (Nat.eq_dec j i) as [->|Hne].
      * rewrite Hi. exact Hb.
      * apply Hres. lia.
    + unfold sent_messages in *. rewrite flat_map_app, Hsent. simpl.
      rewrite Hi. reflexivity.
Qed.

(** With continue-on-failure the loop never throws: every item is
    transmitted and leaves one record, decided by the outcome of its
    transmission. *)
Lemma send_loop_continue n i rd h r evs :
  continueOnFail host = true ->
  send_loop host sdk n i rd h = (r, evs) ->
  existsb is_other_fault evs = false ->
  exists out,
    r = Ok (rd ++ out) /\ length out = n /\ length (send_outcomes evs) = n /\
    (forall j o, nth_error (send_outcomes evs) j = Some o ->
                 nth_error out j = Some (item_record host (i + j) o)) /\
    (forall j, i <= j < i + n ->
       getNodeParameter host "messageBody" j None = Ok (resolved_body host j)) /\
    sent_messages evs =
      map (fun j => JObj [("body", resolved_body host j)]) (seq i n).
Proof.
  intros C. revert i rd h r evs.
  induction n as [|n IH]; intros i rd h r evs H NF; simpl in H; minv.
  - exists []. rewrite app_nil_r. repeat split; auto.
    + intros [|j] o; discriminate.
    + intros; lia.
  - item_cases H; rewrite ?C in Hr; discriminate.
  - rewrite existsb_app in NF. apply orb_false_elim in NF.
    destruct NF as [NF1 NF2].
    assert (Hitem : exists o,
               send_outcomes x0 = [o] /\ x = rd ++ [item_record host i o] /\
               getNodeParameter host "messageBody" i None
                 = Ok (resolved_body host i) /\
               sent_messages x0 = [JObj [("body", resolved_body host i)]]).
    { item_cases H; rewrite ?C in Hr; subst x0; try discriminate;
        injection Hr as ->;
        assert (Hi : resolved_body host i = b)
          by (unfold resolved_body; rewrite Hb; reflexivity).
      - exists (Ok tt). simpl. rewrite Hi. auto.
      - exists (Throw e). simpl. rewrite Hi. auto. }
    destruct Hitem as (o & Ho & -> & Hbi & Hsi).
    destruct (IH _ _ _ _ _ H0 NF2)
      as (out & -> & Hlen & Hlen' & Hnth & Hres & Hsent).
    exists (item_record host i o :: out).
    rewrite send_outcomes_app, sent_messages_app, Ho, Hsi, Hsent. simpl.
    repeat split; try congruence.
    + rewrite <- app_assoc. reflexivity.
    + intros [|j] o' Hj; simpl in *.
      * rewrite Nat.add_0_r. congruence.
      * apply Hnth in Hj. rewrite Hj.
        replace (i + S j) with (S i + j) by lia. reflexivity.
    + intros j Hj. destruct (Nat.eq_dec j i) as [->|Hne]; [exact Hbi|].
      apply Hres. lia.
Qed.

End SendLoop.

(** ** The loops: what they leave in the trace *)

Section Loops.
Variable host : Host.
Variable sdk : Sdk.

Lemma send_loop_quiet n i rd h r evs :
  send_loop host sdk n i rd h = (r, evs) ->
  quiet evs /\ post_process_log evs = [].
Proof.
  intros H. apply send_loop_events in H.
  split; [constructor|]; by_events H.
Qed.

Lemma post_process_configured a act m :
  configured_action a = Some act ->
  post_process sdk (JStr a) m = call sdk (act m).
Proof.
  unfold configured_action, post_process. simpl.
  destruct (String.eqb a "complete"); [intros [= <-]; reflexivity|].
  destruct (String.eqb a "abandon"); [intros [= <-]; reflexivity|].
  destruct (String.eqb a "deadLetter"); [intros [= <-]; reflexivity|].
  discriminate.
Qed.

Lemma post_process_events pp m h r evs :
  post_process sdk pp m h = (r, evs) ->
  Forall (fun ev => is_post_process ev = true) evs /\
  (forall e, r = Throw e -> existsb is_fault evs = true).
Proof.
  unfold post_process. intros H. minv_if; (split; [repeat constructor | intros e He; try discriminate He; simpl; rewrite ?He; reflexivity]).
Qed.

Lemma post_loop_events pp msgs h r evs :
  post_loop sdk pp msgs h = (r, evs) ->
  Forall (fun ev => is_post_process ev = true) evs /\
  (forall e, r = Throw e -> existsb is_fault evs = true).
Proof.
  revert h r evs.
  induction msgs as [|m rest IH]; intros h r evs H; simpl in H; minv.
  - split; [constructor | discriminate].
  - apply post_process_events in H. exact H.
  - apply post_process_events in H. apply IH in H0.
    destruct H as [HF _], H0 as [HF' HT]. split.
    + apply Forall_app. auto.
    + intros e He. rewrite existsb_app, (HT e He). apply orb_true_r.
Qed.

Lemma post_loop_quiet pp msgs h r evs :
  post_loop sdk pp msgs h = (r, evs) ->
  quiet evs /\ param_log evs = [] /\ send_outcomes evs = [].
Proof.
  intros H. apply post_loop_events in H. destruct H as [H _].
  split; [constructor|split]; by_events H.
Qed.

(** When no post-processing call fails, the loop applies the configured
    action to every message, in order. *)
Lemma post_loop_applies a act msgs h r evs :
  configured_action a = Some act ->
  post_loop sdk (JStr a) msgs h = (r, evs) ->
  existsb is_post_fault evs = false ->
  r = Ok tt /\ evs = map (fun m => EvCall (act m) (Ok tt)) msgs.
Proof.
  intros Ha. revert h r evs.
  induction msgs as [|m rest IH]; intros h r evs H NF; simpl in H.
  - minv. auto.
  - rewrite (post_process_configured _ _ _ Ha) in H. minv.
    + unfold configured_action in Ha.
      destruct (String.eqb a "complete"); [injection Ha as <-; discriminate|].
      destruct (String.eqb a "abandon"); [injection Ha as <-; discriminate|].
      destruct (String.eqb a "deadLetter"); [injection Ha as <-; discriminate|].
      discriminate.
    + simpl in NF.
      assert (Hm : is_post_fault (EvCall (act m) (Ok tt)) = false).
      { unfold is_post_fault. simpl. apply andb_false_r. }
      rewrite Hm in NF. simpl in NF.
      destruct (IH _ _ _ H0 NF) as (-> & ->). auto.
Qed.

Lemma configured_action_cases a act :
  configured_action a = Some act ->
  act = CompleteMessage \/ act = AbandonMessage \/ act = DeadLetterMessage.
Proof.
  unfold configured_action.
  destruct (String.eqb a "complete"); [intros [= <-]; auto|].
  destruct (String.eqb a "abandon"); [intros [= <-]; auto|].
  destruct (String.eqb a "deadLetter"); [intros [= <-]; auto|].
  discriminate.
Qed.

(** Whatever fails, the loop applies the configured action to a prefix of
    the messages, in order. *)
Lemma post_loop_prefix a act msgs h r evs :
  configured_action a = Some act ->
  post_loop sdk (JStr a) msgs h = (r, evs) ->
  exists j, j <= length msgs /\
            post_process_log evs = map act (firstn j msgs).
Proof.
  intros Ha. pose proof (configured_action_cases _ _ Ha) as Hact.
  revert h r evs.
  induction msgs as [|m rest IH]; intros h r evs H; simpl in H.
  - minv. exists 0. split; [lia | reflexivity].
  - rewrite (post_process_configured _ _ _ Ha) in H. minv.
    + exists 1. split; [simpl; lia|].
      destruct Hact as [->|[->| ->]]; reflexivity.
    + destruct (IH _ _ _ H0) as (j & Hj & Hlog).
      exists (S j). split; [simpl; lia|].
      rewrite post_process_log_app, Hlog.
      destruct Hact as [->|[->| ->]]; reflexivity.
Qed.

(** A loop that completes has met no failure. *)
Lemma post_loop_ok pp msgs h evs :
  post_loop sdk pp msgs h = (Ok tt, evs) -> existsb is_fault evs = false.
Proof.
  revert h evs.
  induction msgs as [|m rest IH]; intros h evs H; simpl in H; minv.
  - reflexivity.
  - rewrite existsb_app, (IH _ _ H0), orb_false_r.
    unfold post_process in H. minv_if; reflexivity.
Qed.

Lemma post_fault_is_fault tr :
  existsb is_fault tr = false -> existsb is_post_fault tr = false.
Proof.
  induction tr as [|ev tr IH]; simpl; auto.
  intros H. apply orb_false_elim in H. destruct H as [H1 H2].
  unfold is_post_fault at 1. rewrite H1, andb_false_r. simpl. auto.
Qed.

End Loops.

(** Collects, for every loop met by an inversion, what it leaves in the
    trace. *)
Ltac loop_facts :=
  repeat match goal with
    | H : post_loop _ _ _ _ = (_, _) |- _ =>
        let Q := fresh "Q" in
        pose proof (post_loop_quiet _ _ _ _ _ _ H) as (Q & ? & ?);
        destruct Q;
        apply post_loop_events in H; destruct H as [? ?]
    | H : send_loop _ _ _ _ _ _ = (_, _) |- _ =>
        let Q := fresh "Q" in
        pose proof (send_loop_quiet _ _ _ _ _ _ _ _ H) as (Q & ?);
        destruct Q;
        pose proof (send_loop_param_log _ _ _ _ _ _ _ _ H) as (? & ? & ? & ?);
        apply send_loop_events in H
    end.

(** Evaluates the observations of a trace made of known events and of the
    events of loops. *)
Ltac crunch :=
  repeat rewrite ?count_app, ?count_cons, ?count_nil;
  rewrite ?receiver_log_app, ?fetch_log_app, ?param_log_app,
    ?post_process_log_app, ?send_outcomes_app, ?sdk_calls_app;
  simpl;
  repeat match goal with
    | H : count _ _ = 0 |- _ => rewrite H
    | H : receiver_log _ = [] |- _ => rewrite H
    | H : fetch_log _ = [] |- _ => rewrite H
    | H : param_log _ = [] |- _ => rewrite H
    | H : post_process_log _ = [] |- _ => rewrite H
    | H : send_outcomes _ = [] |- _ => rewrite H
    end;
  simpl.

(** ** The send branch *)

Section SendBranch.

Variable host : Host.
Variable sdk : Sdk.

Lemma send_branch_no_fault q rd h r evs :
  send_branch host sdk q rd h = (r, evs) ->
  existsb is_fault evs = false ->
  r = Ok (rd ++ send_output host) /\
  (forall j, j < length (getInputData host) ->
     getNodeParameter host "messageBody" j None = Ok (resolved_body host j)) /\
  sent_messages evs =
    map (fun j => JObj [("body", resolved_body host j)])
        (seq 0 (length (getInputData host))).
Proof.
  unfold send_branch. intros H NF. minv; split_nf NF.
  - apply send_loop_throws in H0. congruence.
  - destruct (send_loop_no_fault _ _ _ _ _ _ _ _ H0 NF) as (Hr & Hb & Hs).
    injection Hr as ->. repeat split.
    + intros j Hj. apply Hb. lia.
    + rewrite !sent_messages_app, Hs. simpl. rewrite app_nil_r. reflexivity.
Qed.

Lemma send_branch_continue q rd h r evs :
  continueOnFail host = true ->
  send_branch host sdk q rd h = (r, evs) ->
  existsb is_other_fault evs = false ->
  exists out,
    r = Ok (rd ++ out) /\
    length out = length (getInputData host) /\
    length (send_outcomes evs) = length (getInputData host) /\
    (forall j o, nth_error (send_outcomes evs) j = Some o ->
                 nth_error out j = Some (item_record host j o)) /\
    (forall j, j < length (getInputData host) ->
       getNodeParameter host "messageBody" j None = Ok (resolved_body host j)) /\
    sent_messages evs =
      map (fun j => JObj [("body", resolved_body host j)])
          (seq 0 (length (getInputData host))).
Proof.
  unfold send_branch. intros C H NF. minv; split_nf NF.
  - destruct (send_loop_continue _ _ _ _ _ _ _ _ C H0 NF)
      as (out & Hr & _). discriminate.
  - destruct (send_loop_continue _ _ _ _ _ _ _ _ C H0 NF)
      as (out & Hr & Hlen & Hlen' & Hnth & Hres & Hsent). injection Hr as ->.
    exists out. rewrite !send_outcomes_app, !sent_messages_app, Hsent. simpl.
    rewrite !app_nil_r. repeat split; auto.
    intros j Hj. apply Hres. lia.
Qed.

Lemma send_branch_handles q rd h r evs :
  send_branch host sdk q rd h = (r, evs) ->
  count opens_client evs = 0 /\ count closes_client evs = 0 /\
  count opens_receiver evs = 0 /\ count closes_receiver evs = 0 /\
  count closes_sender evs <= count opens_sender evs <= 1 /\
  (forall rd', r = Ok rd' ->
               count closes_sender evs = 1 /\ count opens_sender evs = 1).
Proof.
  unfold send_branch. intros H. minv_if; loop_facts.
  all: crunch.
  all: repeat split; try lia; try discriminate.
Qed.

Lemma send_branch_receiver q rd h r evs :
  send_branch host sdk q rd h = (r, evs) -> receiver_log evs = [].
Proof.
  unfold send_branch. intros H. minv_if; loop_facts.
  all: crunch; reflexivity.
Qed.

Lemma send_branch_param_log q rd h r evs :
  send_branch host sdk q rd h = (r, evs) ->
  exists rest,
    param_log evs ++ rest = body_params (length (getInputData host)) /\
    (forall rd', r = Ok rd' -> rest = []).
Proof.
  unfold send_branch, body_params. intros H.
  assert (Hsplit : forall m n, m <= n ->
            map (fun i => ("messageBody", i)) (seq 0 m)
              ++ map (fun i => ("messageBody", i)) (seq m (n - m))
            = map (fun i => ("messageBody", i)) (seq 0 n)).
  { intros m n Hm. rewrite <- map_app, <- seq_app. do 2 f_equal. lia. }
  minv.
  - exists (map (fun i => ("messageBody", i))
                (seq 0 (length (getInputData host)))).
    split; [reflexivity | discriminate].
  - destruct (send_loop_param_log _ _ _ _ _ _ _ _ H0) as (m & Hm & Hlog & _).
    exists (map (fun i => ("messageBody", i))
                (seq m (length (getInputData host) - m))).
    rewrite param_log_app, Hlog. simpl.
    split; [apply Hsplit; assumption | discriminate].
  - destruct (send_loop_param_log _ _ _ _ _ _ _ _ H0) as (m & Hm & Hlog & Hok).
    rewrite (Hok _ eq_refl) in Hlog.
    exists []. rewrite !param_log_app, Hlog. simpl. rewrite !app_nil_r.
    split; [reflexivity | discriminate].
  - destruct (send_loop_param_log _ _ _ _ _ _ _ _ H0) as (m & Hm & Hlog & Hok).
    rewrite (Hok _ eq_refl) in Hlog.
    exists []. rewrite !param_log_app, Hlog. simpl. rewrite !app_nil_r.
    split; [reflexivity | reflexivity].
Qed.

(** Without continue-on-failure, a failed transmission is the last event of
    the loop, which throws the error built in the [catch] clause of the
    turn, tagged with the index of the item. *)
Lemma send_loop_abort n i rd h r evs k e :
  continueOnFail host = false ->
  send_loop host sdk n i rd h = (r, evs) ->
  nth_error (send_outcomes evs) k = Some (Throw e) ->
  r = Throw (NodeOperationError (message e) (Some (i + k))) /\
  length (send_outcomes evs) = S k /\
  param_log evs = map (fun j => ("messageBody", j)) (seq i (S k)).
Proof.
  intros C. revert i rd h r evs k.
  induction n as [|n IH]; intros i rd h r evs k H Hk; simpl in H; minv.
  - destruct k; discriminate.
  - item_cases H; rewrite ?C in Hr; subst evs; try discriminate.
    + destruct k as [|k]; [|destruct k; discriminate].
      injection Hk as <-. injection Hr as ->.
      rewrite Nat.add_0_r. auto.
    + destruct k; discriminate.
  - item_cases H; rewrite ?C in Hr; subst x0; try discriminate.
    rewrite send_outcomes_app, param_log_app in *. simpl in *.
    destruct k as [|k]; [discriminate|]. simpl in Hk.
    destruct (IH _ _ _ _ _ _ H0 Hk) as (-> & Hlen & Hlog).
    rewrite Hlen, Hlog. repeat split; auto. do 3 f_equal. lia.
Qed.

Lemma send_branch_abort q rd h r evs k e :
  continueOnFail host = false ->
  send_branch host sdk q rd h = (r, evs) ->
  nth_error (send_outcomes evs) k = Some (Throw e) ->
  r = Throw (NodeOperationError (message e) (Some k)) /\
  length (send_outcomes evs) = S k /\
  param_log evs = map (fun j => ("messageBody", j)) (seq 0 (S k)) /\
  count closes_sender evs = 0.
Proof.
  unfold send_branch. intros C H Hk. minv.
  - destruct k; discriminate.
  - rewrite send_outcomes_app in Hk. simpl in Hk.
    destruct (send_loop_abort _ _ _ _ _ _ _ _ C H0 Hk) as (_ & Hlen & Hlog).
    destruct (send_loop_quiet _ _ _ _ _ _ _ _ H0) as ([] & _).
    rewrite send_outcomes_app, param_log_app, count_app, count_cons. simpl.
    split; [|auto].
    destruct (send_loop_abort _ _ _ _ _ _ _ _ C H0 Hk) as (Hr & _).
    exact Hr.
  - rewrite !send_outcomes_app in Hk. simpl in Hk. rewrite app_nil_r in Hk.
    destruct (send_loop_abort _ _ _ _ _ _ _ _ C H0 Hk) as (Hr & _).
    discriminate.
  - rewrite !send_outcomes_app in Hk. simpl in Hk. rewrite app_nil_r in Hk.
    destruct (send_loop_abort _ _ _ _ _ _ _ _ C H0 Hk) as (Hr & _).
    discriminate.
Qed.

End SendBranch.

(** ** The receive branch *)

Section ReceiveBranch.

Variable host : Host.
Variable sdk : Sdk.

Lemma receive_branch_handles q sub rd h r evs :
  receive_branch host sdk q sub rd h = (r, evs) ->
  count opens_client evs = 0 /\ count closes_client evs = 0 /\
  count opens_sender evs = 0 /\ count closes_sender evs = 0 /\
  count closes_receiver evs <= count opens_receiver evs <= 1 /\
  (forall rd', r = Ok rd' ->
               count closes_receiver evs = 1 /\ count opens_receiver evs = 1).
Proof.
  unfold receive_branch, createReceiver. intros H. minv_if; loop_facts.
  all: crunch.
  all: repeat split; try lia; try discriminate.
Qed.

Lemma receive_branch_ok q sub rd h out evs :
  receive_branch host sdk q sub rd h = (Ok out, evs) ->
  exists f messages,
    fetch_log evs = [(f, Ok messages)] /\
    out = rd ++ [item (receive_record q sub messages)].
Proof.
  unfold receive_branch, createReceiver. intros H. minv_if; loop_facts.
  all: crunch; eauto.
Qed.

Lemma receive_branch_receiver q sub rd h r evs :
  receive_branch host sdk q sub rd h = (r, evs) ->
  (receiver_log evs = [] \/ receiver_log evs = [receiver_of q sub]) /\
  ((forall name, In name receive_params ->
                 exists v, getNodeParameter host name 0 None = Ok v) ->
   receiver_log evs = [receiver_of q sub]).
Proof.
  unfold receive_branch, createReceiver, receiver_of. intros H.
  minv_if; loop_facts.
  all: crunch.
  all: match goal with
       | H : truthy _ = _ |- _ => rewrite H
       | _ => idtac
       end.
  all: split; [auto|]; intros Hall; try reflexivity.
  all: match goal with
       | H : getNodeParameter _ ?name _ _ = Throw _ |- _ =>
           destruct (Hall name) as (? & ?); [simpl; auto|congruence]
       end.
Qed.

Lemma receive_branch_peek q sub rd h r evs :
  getNodeParameter host "receiveMode" 0 None = Ok (JStr "peek") ->
  receive_branch host sdk q sub rd h = (r, evs) ->
  post_process_log evs = [].
Proof.
  unfold receive_branch, createReceiver. intros Hrm H. minv_if.
  all: try match goal with
         | H1 : getNodeParameter host "receiveMode" 0 None = Ok ?x,
           H2 : strict_eq_str ?x "peek" = false |- _ =>
             rewrite Hrm in H1; injection H1 as <-; discriminate H2
         end.
  all: reflexivity.
Qed.

Lemma receive_branch_applies q sub rd h r evs rm a act f messages :
  getNodeParameter host "receiveMode" 0 None = Ok rm ->
  strict_eq_str rm "peek" = false ->
  getNodeParameter host "postProcess" 0 None = Ok (JStr a) ->
  configured_action a = Some act ->
  receive_branch host sdk q sub rd h = (r, evs) ->
  fetch_log evs = [(f, Ok messages)] ->
  existsb is_post_fault evs = false ->
  exists pre rc,
    evs = pre ++ EvFetch f (Ok messages)
              :: map (fun m => EvCall (act m) (Ok tt)) messages
              ++ [EvCall ReceiverClose rc] /\
    post_process_log pre = [] /\ count closes_receiver pre = 0.
Proof.
  unfold receive_branch, createReceiver. intros Hrm Hpeek Hpp Ha H Hf NF.
  minv_if.
  all: repeat match goal with
         | H1 : getNodeParameter host "receiveMode" 0 None = Ok ?x |- _ =>
             rewrite Hrm in H1; injection H1 as <-
         | H1 : getNodeParameter host "postProcess" 0 None = Ok ?x |- _ =>
             rewrite Hpp in H1; injection H1 as <-
         end.
  all: try congruence.
  all: try discriminate Hf.
  all: try match goal with
         | H : post_loop _ _ _ _ = (_, _) |- _ =>
             pose proof (post_loop_quiet _ _ _ _ _ _ H) as (Q & _ & _);
             destruct Q;
             rewrite !fetch_log_app in Hf; simpl in Hf;
             repeat (rewrite existsb_app in NF; simpl in NF);
             rewrite ?orb_false_r in NF;
             try (injection Hf as <- <-);
             destruct (post_loop_applies _ _ _ _ _ _ _ Ha H) as (? & ?);
               [try assumption|]
         end.
  all: try discriminate.
  all: subst.
  all: rewrite ?app_nil_r.
  all: try (eexists (_ :: _ :: _ :: _ :: [_]), _; split;
            [simpl; rewrite <- ?app_assoc; reflexivity | split; reflexivity]).
Qed.

Lemma receive_branch_prefix q sub rd h r evs rm a act f messages :
  getNodeParameter host "receiveMode" 0 None = Ok rm ->
  strict_eq_str rm "peek" = false ->
  getNodeParameter host "postProcess" 0 None = Ok (JStr a) ->
  configured_action a = Some act ->
  receive_branch host sdk q sub rd h = (r, evs) ->
  fetch_log evs = [(f, Ok messages)] ->
  exists j, j <= length messages /\
            post_process_log evs = map act (firstn j messages).
Proof.
  unfold receive_branch, createReceiver. intros Hrm Hpeek Hpp Ha H Hf.
  minv_if.
  all: repeat match goal with
         | H1 : getNodeParameter host "receiveMode" 0 None = Ok ?x |- _ =>
             rewrite Hrm in H1; injection H1 as <-
         | H1 : getNodeParameter host "postProcess" 0 None = Ok ?x |- _ =>
             rewrite Hpp in H1; injection H1 as <-
         end.
  all: try congruence.
  all: try discriminate Hf.
  all: match goal with
       | H : post_loop _ _ _ _ = (_, _) |- _ =>
           pose proof (post_loop_quiet _ _ _ _ _ _ H) as (Q & _ & _);
           destruct Q;
           rewrite !fetch_log_app in Hf; simpl in Hf;
           try (injection Hf as <- <-);
           destruct (post_loop_prefix _ _ _ _ _ _ _ Ha H) as (j & Hj & Hlog)
       end.
  all: try discriminate.
  all: exists j; (split; [assumption|]).
  all: rewrite !post_process_log_app, Hlog; simpl; rewrite ?app_nil_r;
    reflexivity.
Qed.

(** The receiver is closed only after the loop has completed. *)
Lemma receive_branch_released q sub rd h r evs rm rc :
  getNodeParameter host "receiveMode" 0 None = Ok rm ->
  strict_eq_str rm "peek" = false ->
  receive_branch host sdk q sub rd h = (r, evs) ->
  In (EvCall ReceiverClose rc) evs ->
  existsb is_post_fault evs = false.
Proof.
  unfold receive_branch, createReceiver. intros Hrm Hpeek H Hin.
  minv_if.
  all: repeat match goal with
         | H1 : getNodeParameter host "receiveMode" 0 None = Ok ?x |- _ =>
             rewrite Hrm in H1; injection H1 as <-
         end.
  all: try congruence.
  all: try (simpl in Hin;
            repeat (destruct Hin as [Hin|Hin]; try discriminate Hin);
            contradiction).
  all: match goal with
       | H : post_loop _ _ _ _ = (Throw _, ?x) |- _ =>
           exfalso;
           pose proof (post_loop_quiet _ _ _ _ _ _ H) as (Q & _ & _);
           destruct Q;
           repeat (apply in_app_or in Hin; destruct Hin as [Hin|Hin]);
           try (simpl in Hin;
                repeat (destruct Hin as [Hin|Hin]; try discriminate Hin);
                contradiction);
           match goal with
           | Hc : count closes_receiver x = 0 |- _ =>
               apply (count_zero_not_in _ _ _ Hc) in Hin; discriminate Hin
           end
       | H : post_loop _ _ _ _ = (Ok tt, ?x) |- _ =>
           apply post_loop_ok in H; apply post_fault_is_fault in H;
           repeat (rewrite existsb_app; simpl);
           rewrite H; reflexivity
       end.
Qed.

Lemma receive_branch_param_log q sub rd h r evs :
  receive_branch host sdk q sub rd h = (r, evs) ->
  exists rest,
    param_log evs ++ rest = map (fun name => (name, 0)) receive_params /\
    (forall rd', r = Ok rd' -> rest = []).
Proof.
  unfold receive_branch, createReceiver. intros H. minv_if; loop_facts.
  all: crunch.
  all: eexists; (split; [reflexivity|]); try discriminate; reflexivity.
Qed.

End ReceiveBranch.

(** ** The dispatch on the operation *)

Section Dispatch.

Variable host : Host.
Variable sdk : Sdk.

Lemma dispatch_send op q sub rd :
  strict_eq_str op "send" = true ->
  dispatch host sdk op q sub rd = send_branch host sdk q rd.
Proof. unfold dispatch. intros ->. reflexivity. Qed.

Lemma dispatch_receive op q sub rd :
  strict_eq_str op "receive" = true ->
  dispatch host sdk op q sub rd = receive_branch host sdk q sub rd.
Proof.
  unfold dispatch. intros H.
  destruct op; try discriminate. simpl in *.
  apply String.eqb_eq in H. subst. reflexivity.
Qed.

Lemma dispatch_handles op q sub rd h r evs :
  dispatch host sdk op q sub rd h = (r, evs) ->
  count opens_client evs = 0 /\ count closes_client evs = 0 /\
  count closes_sender evs <= count opens_sender evs <= 1 /\
  count closes_receiver evs <= count opens_receiver evs <= 1 /\
  (forall rd', r = Ok rd' ->
               count closes_sender evs = count opens_sender evs /\
               count closes_receiver evs = count opens_receiver evs).
Proof.
  unfold dispatch. intros H.
  destruct (strict_eq_str op "send");
    [|destruct (strict_eq_str op "receive")].
  - apply send_branch_handles in H.
    destruct H as (-> & -> & -> & -> & ? & Hok).
    do 4 (split; [lia|]). intros rd' Hr. destruct (Hok rd' Hr). lia.
  - apply receive_branch_handles in H.
    destruct H as (-> & -> & -> & -> & ? & Hok).
    do 4 (split; [lia|]). intros rd' Hr. destruct (Hok rd' Hr). lia.
  - minv. do 4 (split; [unfold count; simpl; lia|]). intros. split; reflexivity.
Qed.
End Dispatch.

(** ** Hosts that agree *)

Section Extensionality.

Context {A B : Type}.

Lemma bind_ext (m1 m2 : M A) (f1 f2 : A -> M B) h :
  m1 h = m2 h -> (forall a h', f1 a h' = f2 a h') ->
  bind m1 f1 h = bind m2 f2 h.
Proof.
  intros Hm Hf. unfold bind. rewrite Hm.
  destruct (m2 h) as [[a|e] evs]; [rewrite Hf|]; reflexivity.
Qed.

Lemma try_catch_ext (m1 m2 : M A) (h1 h2 : Exn -> M A) h :
  m1 h = m2 h -> (forall e h', h1 e h' = h2 e h') ->
  try_catch m1 h1 h = try_catch m2 h2 h.
Proof.
  intros Hm Hh. unfold try_catch. rewrite Hm.
  destruct (m2 h) as [[a|e] evs]; [|rewrite Hh]; reflexivity.
Qed.

Lemma try_finally_ext (m1 m2 : M A) (fin : M unit) h :
  m1 h = m2 h -> try_finally m1 fin h = try_finally m2 fin h.
Proof. intros Hm. unfold try_finally. rewrite Hm. reflexivity. Qed.

End Extensionality.

Section Agreement.

Variables host1 host2 : Host.
Variable sdk : Sdk.
Hypothesis Hagree : agree host1 host2.

Lemma param_agree_0 name fb h :
  param host1 name 0 fb h = param host2 name 0 fb h.
Proof.
  unfold param. destruct Hagree as (_ & _ & H0 & _). rewrite H0. reflexivity.
Qed.

Lemma param_agree_body i fb h :
  param host1 "messageBody" i fb h = param host2 "messageBody" i fb h.
Proof.
  unfold param. destruct Hagree as (_ & _ & _ & Hb). rewrite Hb. reflexivity.
Qed.

Lemma send_item_agree i rd h :
  send_item host1 sdk i rd h = send_item host2 sdk i rd h.
Proof.
  unfold send_item. apply try_catch_ext.
  - apply bind_ext; [apply param_agree_body | reflexivity].
  - intros e h'. destruct Hagree as (-> & _). reflexivity.
Qed.

Lemma send_loop_agree n i rd h :
  send_loop host1 sdk n i rd h = send_loop host2 sdk n i rd h.
Proof.
  revert i rd h. induction n as [|n IH]; intros i rd h; simpl.
  - reflexivity.
  - apply bind_ext; [apply send_item_agree | intros; apply IH].
Qed.

Lemma send_branch_agree q rd h :
  send_branch host1 sdk q rd h = send_branch host2 sdk q rd h.
Proof.
  unfold send_branch. destruct Hagree as (_ & -> & _).
  apply bind_ext; [reflexivity|]. intros _ h'.
  apply bind_ext; [apply send_loop_agree | reflexivity].
Qed.

Lemma receive_branch_agree q sub rd h :
  receive_branch host1 sdk q sub rd h = receive_branch host2 sdk q sub rd h.
Proof.
  unfold receive_branch.
  repeat (apply bind_ext; [apply param_agree_0 | intros]).
  reflexivity.
Qed.

Lemma execute_agree h : execute host1 sdk h = execute host2 sdk h.
Proof.
  unfold execute.
  repeat (apply bind_ext; [apply param_agree_0 | intros]).
  apply bind_ext; [reflexivity | intros].
  apply bind_ext; [| reflexivity].
  apply try_finally_ext. unfold guarded.
  apply try_catch_ext; [| reflexivity].
  unfold dispatch.
  destruct (strict_eq_str a2 "send"); [apply send_branch_agree|].
  destruct (strict_eq_str a2 "receive"); [apply receive_branch_agree|].
  reflexivity.
Qed.

End Agreement.

(** ** The parameters an invocation resolves *)

Lemma resolutions_index host name i :
  In (name, i) (resolutions host) ->
  (name <> "messageBody" -> i = 0) /\
  (name = "messageBody" ->
   getNodeParameter host "operation" 0 None = Ok (JStr "send") /\
   i < length (getInputData host)).
Proof.
  unfold resolutions. intros Hin. apply in_app_or in Hin.
  destruct Hin as [Hin|Hin].
  - simpl in Hin.
    destruct Hin as [H|[H|[H|[H|[]]]]]; injection H as <- <-;
      split; [reflexivity | discriminate | reflexivity | discriminate
             | reflexivity | discriminate | reflexivity | discriminate].
  - destruct (getNodeParameter host "operation" 0 None) as [op|];
      [|contradiction].
    destruct (strict_eq_str op "send") eqn:Hs.
    + unfold body_params in Hin. apply in_map_iff in Hin.
      destruct Hin as (j & [= <- <-] & Hj). apply in_seq in Hj.
      split; [congruence|]. intros _. split; [|lia].
      destruct op; try discriminate. simpl in Hs.
      apply String.eqb_eq in Hs. subst. reflexivity.
    + destruct (strict_eq_str op "receive"); [|contradiction].
      simpl in Hin.
      destruct Hin as [H|[H|[H|[H|[]]]]]; injection H as <- <-;
        split; [reflexivity | discriminate | reflexivity | discriminate
               | reflexivity | discriminate | reflexivity | discriminate].
Qed.

Lemma resolutions_NoDup host : NoDup (resolutions host).
Proof.
  unfold resolutions.
  assert (Hc : NoDup common_params).
  { unfold common_params. repeat constructor; simpl; intuition discriminate. }
  apply NoDup_app; [exact Hc| |].
  - destruct (getNodeParameter host "operation" 0 None) as [op|];
      [|constructor].
    destruct (strict_eq_str op "send").
    + unfold body_params. apply NoDup_map_NoDup_ForallPairs.
      * intros x y _ _. congruence.
      * apply seq_NoDup.
    + destruct (strict_eq_str op "receive"); [|constructor].
      repeat constructor; simpl; intuition discriminate.
  - intros [name i] Hin Hin'.
    destruct (getNodeParameter host "operation" 0 None) as [op|];
      [|contradiction].
    destruct (strict_eq_str op "send").
    + unfold body_params in Hin'. apply in_map_iff in Hin'.
      destruct Hin' as (j & [= <- <-] & _). simpl in Hin.
      intuition discriminate.
    + destruct (strict_eq_str op "receive"); [|contradiction].
      simpl in Hin, Hin'. intuition congruence.
Qed.

(** Every invocation resolves a prefix of [resolutions], and all of it when
    it returns. *)
Lemma run_param_log host sdk :
  exists rest,
    param_log (snd (run host sdk)) ++ rest = resolutions host /\
    (forall out, fst (run host sdk) = Ok out -> rest = []).
Proof.
  destruct (run host sdk) as [r tr] eqn:E. simpl.
  apply run_inv in E. unfold resolutions.
  destruct E as [(e & -> & Hearly)
                | (cs & q & sub & op & r1 & evs & rc
                   & _ & _ & _ & Hop & G & _ & -> & ->)].
  - destruct Hearly; simpl; eexists; (split; [reflexivity | discriminate]).
  - rewrite Hop. apply guarded_inv in G. destruct G as (r0 & D & ->).
    rewrite !param_log_app. simpl. rewrite app_nil_r.
    assert (Hok : forall out, completion (caught op r0) rc = Ok out ->
                              exists rd', r0 = Ok rd').
    { intros out. destruct rc as [[]|]; [|discriminate].
      destruct r0; [eauto | discriminate]. }
    unfold dispatch in D.
    destruct (strict_eq_str op "send");
      [|destruct (strict_eq_str op "receive")].
    + apply send_branch_param_log in D. destruct D as (rest & <- & Hr).
      exists rest. split; [reflexivity|].
      intros out Hout. destruct (Hok out Hout) as (rd' & ->). eauto.
    + apply receive_branch_param_log in D. simpl in D.
      destruct D as (rest & <- & Hr).
      exists rest. split; [reflexivity|].
      intros out Hout. destruct (Hok out Hout) as (rd' & ->). eauto.
    + minv. exists []. split; reflexivity.
Qed.

Lemma send_output_length host :
  length (send_output host) = length (getInputData host).
Proof. unfold send_output. rewrite length_map, length_seq. reflexivity. Qed.

Lemma send_output_nth host i :
  i < length (getInputData host) ->
  nth_error (send_output host) i
    = Some (item (success_record i (resolved_body host i))).
Proof.
  intros Hi. unfold send_output. rewrite nth_error_map, nth_error_seq.
  destruct (Nat.ltb_spec i (length (getInputData host))); [reflexivity|lia].
Qed.

(** ** Abort of a send *)

(** What execute does when the transmission of item [k] fails and
    continue-on-failure is off: the transmission of item [k] is the last
    one, no body after that of item [k] is resolved, the sender is not
    closed, the client is closed once, and, when that close succeeds, the
    error thrown is the one built in the outer [catch], which carries the
    message of the failure but no item index. *)
Lemma send_abort host sdk k e :
  getNodeParameter host "operation" 0 None = Ok (JStr "send") ->
  continueOnFail host = false ->
  nth_error (send_outcomes (snd (run host sdk))) k = Some (Throw e) ->
  length (send_outcomes (snd (run host sdk))) = S k /\
  (forall j, In ("messageBody", j) (param_log (snd (run host sdk))) -> j <= k) /\
  count closes_sender (snd (run host sdk)) = 0 /\
  count closes_client (snd (run host sdk)) = 1 /\
  (In (EvCall ClientClose (Ok tt)) (snd (run host sdk)) ->
   fst (run host sdk)
   = Throw (NodeOperationError
              ("Erro ao executar a operação 'send': " ++ message e)%string
              None)).
Proof.
  intros Hop C Hk.
  destruct (run host sdk) as [r tr] eqn:E. simpl in *.
  apply run_inv in E.
  destruct E as [(e0 & _ & Hearly)
                | (cs & q & sub & op & r1 & evs & rc
                   & _ & _ & _ & Hop' & G & Hrc & -> & ->)].
  { destruct Hearly; destruct k; discriminate. }
  rewrite Hop in Hop'. injection Hop' as <-.
  apply guarded_inv in G. destruct G as (r0 & D & ->).
  rewrite dispatch_send in D by reflexivity.
  rewrite !send_outcomes_app in Hk. simpl in Hk. rewrite app_nil_r in Hk.
  destruct (send_branch_abort _ _ _ _ _ _ _ _ _ C D Hk)
    as (-> & Hlen & Hlog & Hcs).
  pose proof (send_branch_handles _ _ _ _ _ _ _ D) as (_ & Hcc & _).
  split; [|split; [|split; [|split]]].
  - rewrite !send_outcomes_app. simpl. rewrite app_nil_r. exact Hlen.
  - intros j Hin. rewrite !param_log_app, Hlog in Hin.
    apply in_app_or in Hin. destruct Hin as [Hin|Hin].
    + simpl in Hin.
      repeat (destruct Hin as [Hin|Hin]; try discriminate Hin).
      contradiction.
    + apply in_app_or in Hin. destruct Hin as [Hin|[]].
      apply in_map_iff in Hin. destruct Hin as (j' & [= <-] & Hin).
      apply in_seq in Hin. lia.
  - rewrite !count_app, Hcs. reflexivity.
  - rewrite !count_app, Hcc. reflexivity.
  - intros Hin. destruct rc as [[]|e']; [reflexivity|].
    exfalso. apply in_app_or in Hin. destruct Hin as [Hin|Hin].
    + simpl in Hin.
      repeat (destruct Hin as [Hin|Hin]; try discriminate Hin). contradiction.
    + apply in_app_or in Hin. destruct Hin as [Hin|Hin].
      * apply (count_zero_not_in _ _ _ Hcc) in Hin. discriminate.
      * simpl in Hin. destruct Hin as [Hin|[]]. discriminate.
Qed.

(** * The claims *)

(** C1.  A send in which no call fails returns one batch of exactly N
    records, N the number of input items; the output item at position [i]
    is [{json: {success: true, itemIndex: i, messageSent: body of item i}}],
    written out here key by key, and the bodies were handed to the sender
    in input order.  This holds for either setting of continue-on-failure,
    in particular when it is disabled. *)
Theorem send_without_failure host sdk :
  getNodeParameter host "operation" 0 None = Ok (JStr "send") ->
  no_fault (snd (run host sdk)) ->
  exists out,
    fst (run host sdk) = Ok [out] /\
    out = map (fun i =>
                 JObj [("json",
                        JObj [("success", JBool true);
                              ("itemIndex", JNum (Z.of_nat i));
                              ("messageSent", resolved_body host i)])])
              (seq 0 (length (getInputData host))) /\
    length out = length (getInputData host) /\
    (forall i, i < length (getInputData host) ->
       getNodeParameter host "messageBody" i None = Ok (resolved_body host i) /\
       nth_error out i =
         Some (JObj [("json",
                      JObj [("success", JBool true);
                            ("itemIndex", JNum (Z.of_nat i));
                            ("messageSent", resolved_body host i)])])) /\
    sent_messages (snd (run host sdk)) =
      map (fun i => JObj [("body", resolved_body host i)])
          (seq 0 (length (getInputData host))).
Proof.
  intros Hop NF. unfold no_fault in NF.
  destruct (run host sdk) as [r tr] eqn:E. simpl in *.
  apply run_inv in E.
  destruct E as [(e & _ & Hearly)
                | (cs & q & sub & op & r1 & evs & rc
                   & _ & _ & _ & Hop' & G & Hrc & -> & ->)].
  { apply early_exit_fault in Hearly. congruence. }
  rewrite Hop in Hop'. injection Hop' as <-.
  split_nf NF. apply orb_false_elim in NF. destruct NF as [NF NFc].
  destruct rc as [[]|e]; [|discriminate].
  apply guarded_inv in G. destruct G as (r0 & D & ->).
  rewrite dispatch_send in D by reflexivity.
  destruct (send_branch_no_fault _ _ _ _ _ _ _ D NF) as (-> & Hb & Hs).
  exists (send_output host).
  split; [reflexivity|].
  split; [reflexivity|].
  split; [apply send_output_length|].
  split.
  - intros i Hi. split; [auto | exact (send_output_nth host i Hi)].
  - rewrite !sent_messages_app, Hs. simpl. rewrite app_nil_r. reflexivity.
Qed.

Lemma send_without_failure_witness :
  getNodeParameter (host_of "send" "" 3 false) "operation" 0 None
    = Ok (JStr "send") /\
  no_fault (snd (run (host_of "send" "" 3 false) (bus_ok []))) /\
  fst (run (host_of "send" "" 3 false) (bus_ok []))
    = Ok [[JObj [("json", JObj [("success", JBool true);
                                ("itemIndex", JNum 0);
                                ("messageSent", JObj [("n", JNum 0)])])];
           JObj [("json", JObj [("success", JBool true);
                                ("itemIndex", JNum 1);
                                ("messageSent", JObj [("n", JNum 1)])])];
           JObj [("json", JObj [("success", JBool true);
                                ("itemIndex", JNum 2);
                                ("messageSent", JObj [("n", JNum 2)])])]]].
Proof.
  assert (H1 : getNodeParameter (host_of "send" "" 3 false) "operation" 0 None
               = Ok (JStr "send")) by reflexivity.
  assert (H2 : no_fault (snd (run (host_of "send" "" 3 false) (bus_ok []))))
    by (vm_compute; reflexivity).
  split; [exact H1|]. split; [exact H2|].
  destruct (send_without_failure _ _ H1 H2) as (out & Hout & Heq & _).
  rewrite Hout, Heq. reflexivity.
Defined.

(** C2.  A send with continue-on-failure on which nothing but transmissions
    fails: if the transmission of item [k] fails with [e] and the other
    transmissions succeed, execute returns one batch of exactly N records;
    the output item at position [k] is
    [{json: {success: false, itemIndex: k, error: message of e}}]; every
    other one is [{json: {success: true, itemIndex: j, messageSent: body of
    item j}}], the item of the failure-free output at that position; and
    all N bodies, those after [k] included, were handed to the sender in
    input order.  The records are written out key by key. *)
Theorem send_continue_on_failure host sdk k e :
  getNodeParameter host "operation" 0 None = Ok (JStr "send") ->
  continueOnFail host = true ->
  existsb is_other_fault (snd (run host sdk)) = false ->
  nth_error (send_outcomes (snd (run host sdk))) k = Some (Throw e) ->
  (forall j o, j <> k ->
     nth_error (send_outcomes (snd (run host sdk))) j = Some o -> o = Ok tt) ->
  exists out,
    fst (run host sdk) = Ok [out] /\
    length out = length (getInputData host) /\
    k < length (getInputData host) /\
    nth_error out k =
      Some (JObj [("json",
                   JObj [("success", JBool false);
                         ("itemIndex", JNum (Z.of_nat k));
                         ("error", JStr (message e))])]) /\
    (forall j, j < length (getInputData host) -> j <> k ->
       getNodeParameter host "messageBody" j None = Ok (resolved_body host j) /\
       nth_error out j =
         Some (JObj [("json",
                      JObj [("success", JBool true);
                            ("itemIndex", JNum (Z.of_nat j));
                            ("messageSent", resolved_body host j)])]) /\
       nth_error out j =
         nth_error
           (map (fun i =>
                   JObj [("json",
                          JObj [("success", JBool true);
                                ("itemIndex", JNum (Z.of_nat i));
                                ("messageSent", resolved_body host i)])])
                (seq 0 (length (getInputData host)))) j) /\
    sent_messages (snd (run host sdk)) =
      map (fun i => JObj [("body", resolved_body host i)])
          (seq 0 (length (getInputData host))).
Proof.
  intros Hop C NF Hk Hothers.
  destruct (run host sdk) as [r tr] eqn:E. simpl in *.
  apply run_inv in E.
  destruct E as [(e0 & _ & Hearly)
                | (cs & q & sub & op & r1 & evs & rc
                   & _ & _ & _ & Hop' & G & Hrc & -> & ->)].
  { destruct Hearly; destruct k; discriminate. }
  rewrite Hop in Hop'. injection Hop' as <-.
  split_nf NF. apply orb_false_elim in NF. destruct NF as [NF NFc].
  destruct rc as [[]|e']; [|discriminate].
  apply guarded_inv in G. destruct G as (r0 & D & ->).
  rewrite dispatch_send in D by reflexivity.
  destruct (send_branch_continue _ _ _ _ _ _ _ C D NF)
    as (out & -> & Hlen & Hlen' & Hnth & Hres & Hsent).
  rewrite !send_outcomes_app, !sent_messages_app in *. simpl in *.
  rewrite app_nil_r in *.
  exists out. split; [reflexivity|]. split; [assumption|].
  assert (Hklt : k < length (getInputData host)).
  { rewrite <- Hlen'. apply nth_error_Some. congruence. }
  split; [assumption|]. split; [exact (Hnth k (Throw e) Hk)|].
  split; [|assumption].
  intros j Hlt Hj. split; [auto|].
  destruct (nth_error (send_outcomes evs) j) as [o|] eqn:Ho.
  - rewrite (Hnth j o Ho), (Hothers j o Hj Ho).
    split; [reflexivity|].
    symmetry. exact (send_output_nth host j Hlt).
  - apply nth_error_None in Ho. lia.
Qed.

Lemma send_continue_on_failure_witness :
  exists out,
    fst (run (host_of "send" "" 3 true) (bus_send_fails 1 (Error "boom")))
      = Ok [out] /\
    length out = 3 /\
    nth_error out 1 =
      Some (JObj [("json", JObj [("success", JBool false);
                                 ("itemIndex", JNum 1);
                                 ("error", JStr "boom")])]).
Proof.
  destruct (send_continue_on_failure
              (host_of "send" "" 3 true) (bus_send_fails 1 (Error "boom"))
              1 (Error "boom"))
    as (out & H1 & H2 & _ & H3 & _).
  - reflexivity.
  - reflexivity.
  - vm_compute. reflexivity.
  - vm_compute. reflexivity.
  - intros [|[|[|j]]] o Hj H; vm_compute in H; try congruence.
    destruct j; discriminate H.
  - exists out. auto.
Defined.

(** C3, at a failing input: three items, continue-on-failure off, the
    transmission of item 1 fails with "boom".  The invocation fails, item 2
    is never transmitted and the client is closed once, but the error that
    execute throws carries no item index: the error tagged with index 1 at
    line 214 is caught by the outer [catch] of line 259 and replaced. *)
Theorem abort_error_untagged :
  let r := run (host_of "send" "" 3 false) (bus_send_fails 1 (Error "boom")) in
  fst r = Throw (NodeOperationError
                   "Erro ao executar a operação 'send': boom" None) /\
  (forall e, fst r = Throw e -> error_itemIndex e = None) /\
  sent_messages (snd r) = [JObj [("body", JObj [("n", JNum 0)])];
                           JObj [("body", JObj [("n", JNum 1)])]] /\
  count closes_client (snd r) = 1.
Proof.
  vm_compute. repeat split. intros e [= <-]. reflexivity.
Qed.




(** C5, amended.  When the final client release fails with [e'], execute
    throws [e'], whatever the invocation had failed with before; an error of
    the guarded block is thrown, wrapped in the operation error, only when
    the release succeeds. *)
Theorem release_failure_wins host sdk :
  (forall e', In (EvCall ClientClose (Throw e')) (snd (run host sdk)) ->
              fst (run host sdk) = Throw e') /\
  (In (EvCall ClientClose (Ok tt)) (snd (run host sdk)) ->
   forall x, fst (run host sdk) = Throw x ->
   exists op e,
     getNodeParameter host "operation" 0 None = Ok op /\
     x = operation_error op e).
Proof.
  destruct (run host sdk) as [r tr] eqn:E. simpl.
  apply run_inv in E.
  destruct E as [(e & -> & Hearly)
                | (cs & q & sub & op & r1 & evs & rc
                   & _ & _ & _ & Hop & G & _ & -> & ->)].
  - split.
    + intros e' Hin. destruct Hearly; simpl in Hin;
        repeat (destruct Hin as [Hin|Hin]; try discriminate Hin);
        contradiction.
    + intros Hin. destruct Hearly; simpl in Hin;
        repeat (destruct Hin as [Hin|Hin]; try discriminate Hin);
        contradiction.
  - apply guarded_inv in G. destruct G as (r0 & D & ->).
    apply dispatch_handles in D. destruct D as (_ & Hcc & _).
    assert (Hlast : forall rc', In (EvCall ClientClose rc')
                                   (prelude cs q sub op ++ evs ++ [EvCall ClientClose rc]) ->
                                rc' = rc).
    { intros rc' Hin. apply in_app_or in Hin. destruct Hin as [Hin|Hin].
      - simpl in Hin.
        repeat (destruct Hin as [Hin|Hin]; try discriminate Hin).
        contradiction.
      - apply in_app_or in Hin. destruct Hin as [Hin|Hin].
        + apply (count_zero_not_in _ _ _ Hcc) in Hin. discriminate.
        + simpl in Hin. destruct Hin as [Hin|[]]. congruence. }
    split.
    + intros e' Hin. apply Hlast in Hin. subst rc. reflexivity.
    + intros Hin x Hx. apply Hlast in Hin. subst rc. simpl in Hx.
      destruct r0 as [rd|e]; simpl in Hx; [discriminate|].
      injection Hx as <-. exists op, e. auto.
Qed.

Lemma release_failure_wins_witness :
  fst (run (host_of "send" "" 3 false)
           (bus_send_and_close_fail 1 (Error "boom") (Error "close failed")))
  = Throw (Error "close failed").
Proof.
  apply (proj1 (release_failure_wins
                  (host_of "send" "" 3 false)
                  (bus_send_and_close_fail 1 (Error "boom")
                                           (Error "close failed")))).
  vm_compute. auto 20.
Defined.

(** C5 as stated fails: the transmission of item 1 fails with "boom", the
    release fails with "close failed", and execute throws the release
    error. *)
Lemma release_failure_masks_original :
  ~ original_error_wins
      (host_of "send" "" 3 false)
      (bus_send_and_close_fail 1 (Error "boom") (Error "close failed")).
Proof.
  intros H.
  specialize (H (operation_error (JStr "send")
                   (NodeOperationError "boom" (Some 1)))
                (Error "close failed")).
  assert (Hthrown :
            fst (run (host_of "send" "" 3 false)
                     (bus_send_and_close_fail 1 (Error "boom")
                                              (Error "close failed")))
            = Throw (Error "close failed")) by (vm_compute; reflexivity).
  rewrite Hthrown in H.
  assert (Hfalse : Throw (A := list (list Json)) (Error "close failed")
                   = Throw (operation_error (JStr "send")
                              (NodeOperationError "boom" (Some 1)))).
  { apply H.
    - vm_compute. reflexivity.
    - vm_compute. auto 20.
    - discriminate. }
  discriminate Hfalse.
Qed.

(** C6.  A receive that returns normally returns one batch of exactly one
    output item, [{json: {success: true, operation: "receive",
    queueOrTopic, subscriptionName, messagesReceived}}], written out here
    key by key; the invocation made exactly one fetch, which succeeded, and
    [messagesReceived] lists the bodies of the fetched messages in fetch
    order (so it is empty when none was available).  The destination name
    is stored under the key [queueOrTopic]. *)
Theorem receive_one_record host sdk queueOrTopic subscriptionName out :
  getNodeParameter host "queueOrTopic" 0 None = Ok queueOrTopic ->
  getNodeParameter host "subscriptionName" 0 (Some (JStr ""))
    = Ok subscriptionName ->
  getNodeParameter host "operation" 0 None = Ok (JStr "receive") ->
  fst (run host sdk) = Ok out ->
  exists f messages,
    fetch_log (snd (run host sdk)) = [(f, Ok messages)] /\
    out = [[JObj [("json",
                   JObj [("success", JBool true);
                         ("operation", JStr "receive");
                         ("queueOrTopic", queueOrTopic);
                         ("subscriptionName", subscriptionName);
                         ("messagesReceived", JArr (map body messages))])]]].
Proof.
  intros Hq Hs Hop Hout.
  destruct (run host sdk) as [r tr] eqn:E. simpl in *. subst r.
  apply run_inv in E.
  destruct E as [(e & He & _)
                | (cs & q & sub & op & r1 & evs & rc
                   & _ & Hq' & Hs' & Hop' & G & _ & -> & Hr)];
    [discriminate|].
  rewrite Hq in Hq'. rewrite Hs in Hs'. rewrite Hop in Hop'.
  injection Hq' as <-. injection Hs' as <-. injection Hop' as <-.
  apply guarded_inv in G. destruct G as (r0 & D & ->).
  destruct rc as [[]|]; [|discriminate]. destruct r0 as [rd|]; [|discriminate].
  injection Hr as ->.
  rewrite dispatch_receive in D by reflexivity.
  apply receive_branch_ok in D. destruct D as (f & messages & Hf & ->).
  exists f, messages. split; [|reflexivity].
  rewrite !fetch_log_app, Hf. reflexivity.
Qed.

Lemma receive_one_record_witness :
  exists f messages,
    fetch_log (snd (run (host_of "receive" "" 0 false) (bus_ok inbox)))
      = [(f, Ok messages)] /\
    fst (run (host_of "receive" "" 0 false) (bus_ok inbox))
      = Ok [[JObj [("json",
                    JObj [("success", JBool true);
                          ("operation", JStr "receive");
                          ("queueOrTopic", JStr "orders");
                          ("subscriptionName", JStr "");
                          ("messagesReceived", JArr (map body messages))])]]].
Proof.
  destruct (receive_one_record
              (host_of "receive" "" 0 false) (bus_ok inbox)
              (JStr "orders") (JStr "")
              [[JObj [("json",
                      JObj [("success", JBool true);
                            ("operation", JStr "receive");
                            ("queueOrTopic", JStr "orders");
                            ("subscriptionName", JStr "");
                            ("messagesReceived",
                             JArr [JStr "a"; JStr "b"])])]]]
              eq_refl eq_refl eq_refl eq_refl)
    as (f & messages & Hf & Hout).
  exists f, messages. split; [exact Hf|].
  rewrite <- Hout. reflexivity.
Defined.

(** C7.  Every receiver that an invocation opens is bound to the configured
    destination, with the subscription as qualifier exactly when the
    subscription name is truthy, which for a string means non-empty, and to
    the destination alone otherwise.  At most one receiver is opened, and a
    receive invocation whose client opened and whose receive parameters
    resolve opens exactly one, whatever the receive mode. *)
Theorem receiver_qualification host sdk queueOrTopic subscriptionName :
  getNodeParameter host "queueOrTopic" 0 None = Ok queueOrTopic ->
  getNodeParameter host "subscriptionName" 0 (Some (JStr ""))
    = Ok subscriptionName ->
  (receiver_log (snd (run host sdk)) = [] \/
   receiver_log (snd (run host sdk))
     = [receiver_of queueOrTopic subscriptionName]) /\
  (getNodeParameter host "operation" 0 None = Ok (JStr "receive") ->
   count opens_client (snd (run host sdk)) = 1 ->
   (forall name, In name receive_params ->
                 exists v, getNodeParameter host name 0 None = Ok v) ->
   receiver_log (snd (run host sdk))
     = [receiver_of queueOrTopic subscriptionName]) /\
  (forall s, subscriptionName = JStr s ->
     (snd (receiver_of queueOrTopic subscriptionName) = Some (JStr s)
      <-> s <> "") /\
     (snd (receiver_of queueOrTopic subscriptionName) = None <-> s = "")).
Proof.
  intros Hq Hs.
  destruct (run host sdk) as [r tr] eqn:E. simpl.
  apply run_inv in E.
  split; [|split].
  - destruct E as [(e & _ & Hearly)
                  | (cs & q & sub & op & r1 & evs & rc
                     & _ & Hq' & Hs' & Hop' & G & _ & -> & _)].
    { left. destruct Hearly; reflexivity. }
    rewrite Hq in Hq'. rewrite Hs in Hs'.
    injection Hq' as <-. injection Hs' as <-.
    apply guarded_inv in G. destruct G as (r0 & D & _).
    rewrite !receiver_log_app. simpl. rewrite app_nil_r.
    unfold dispatch in D.
    destruct (strict_eq_str op "send");
      [|destruct (strict_eq_str op "receive")].
    + apply send_branch_receiver in D. auto.
    + apply receive_branch_receiver in D. tauto.
    + minv. auto.
  - intros Hop Hclient Hall.
    destruct E as [(e & _ & Hearly)
                  | (cs & q & sub & op & r1 & evs & rc
                     & _ & Hq' & Hs' & Hop' & G & _ & -> & _)].
    { destruct Hearly; discriminate Hclient. }
    rewrite Hq in Hq'. rewrite Hs in Hs'. rewrite Hop in Hop'.
    injection Hq' as <-. injection Hs' as <-. injection Hop' as <-.
    apply guarded_inv in G. destruct G as (r0 & D & _).
    rewrite dispatch_receive in D by reflexivity.
    apply receive_branch_receiver in D. destruct D as [_ D].
    rewrite !receiver_log_app, (D Hall). reflexivity.
  - intros s ->. unfold receiver_of. simpl.
    destruct (String.eqb_spec s ""); simpl; split; split;
      congruence.
Qed.

Lemma receiver_qualification_witness :
  receiver_log (snd (run (host_of "receive" "audit" 0 false) (bus_ok inbox)))
    = [(JStr "orders", Some (JStr "audit"))] /\
  receiver_log (snd (run (host_of "receive" "" 0 false) (bus_ok inbox)))
    = [(JStr "orders", None)].
Proof.
  split.
  - apply (proj1 (proj2 (receiver_qualification
                           (host_of "receive" "audit" 0 false) (bus_ok inbox)
                           (JStr "orders") (JStr "audit")
                           eq_refl eq_refl))).
    + reflexivity.
    + reflexivity.
    + intros name Hin. simpl in Hin.
      destruct Hin as [<-|[<-|[<-|[<-|[]]]]]; eexists; reflexivity.
  - apply (proj1 (proj2 (receiver_qualification
                           (host_of "receive" "" 0 false) (bus_ok inbox)
                           (JStr "orders") (JStr "")
                           eq_refl eq_refl))).
    + reflexivity.
    + reflexivity.
    + intros name Hin. simpl in Hin.
      destruct Hin as [<-|[<-|[<-|[<-|[]]]]]; eexists; reflexivity.
Defined.

(** C8.  In a receive invocation: with receive mode 'peek' no
    post-processing call is made on any message.  With any other receive
    mode (so with 'receiveAndComplete') and a post-processing action among
    complete, abandon and deadLetter, once messages were fetched, the
    post-processing calls are the configured call on the fetched messages,
    one per message, in fetch order, up to some message; and whenever the
    receiver is released, which is the case when no post-processing call
    fails, the trace reads: the fetch, then the configured call on each
    fetched message, once, in fetch order, then the close of the receiver,
    with no other post-processing call, and with the receiver not closed
    before. *)
Theorem post_processing host sdk :
  getNodeParameter host "operation" 0 None = Ok (JStr "receive") ->
  (getNodeParameter host "receiveMode" 0 None = Ok (JStr "peek") ->
   post_process_log (snd (run host sdk)) = []) /\
  (forall rm a act f messages,
     getNodeParameter host "receiveMode" 0 None = Ok rm ->
     strict_eq_str rm "peek" = false ->
     getNodeParameter host "postProcess" 0 None = Ok (JStr a) ->
     configured_action a = Some act ->
     fetch_log (snd (run host sdk)) = [(f, Ok messages)] ->
     (exists j, j <= length messages /\
                post_process_log (snd (run host sdk))
                  = map act (firstn j messages)) /\
     ((exists rc, In (EvCall ReceiverClose rc) (snd (run host sdk))) \/
      existsb is_post_fault (snd (run host sdk)) = false ->
      exists pre rc post,
        snd (run host sdk)
          = pre ++ EvFetch f (Ok messages)
                :: map (fun m => EvCall (act m) (Ok tt)) messages
                ++ EvCall ReceiverClose rc :: post /\
        post_process_log pre = [] /\ post_process_log post = [] /\
        count closes_receiver pre = 0 /\
        post_process_log (snd (run host sdk)) = map act messages)).
Proof.
  intros Hop.
  destruct (run host sdk) as [r tr] eqn:E. simpl.
  apply run_inv in E.
  destruct E as [(e & _ & Hearly)
                | (cs & q & sub & op & r1 & evs & rc
                   & _ & _ & _ & Hop' & G & _ & -> & _)].
  { apply early_exit_quiet in Hearly. destruct Hearly as [Hf Hp].
    split; [auto|]. intros rm a act f messages _ _ _ _ Hf'. congruence. }
  rewrite Hop in Hop'. injection Hop' as <-.
  apply guarded_inv in G. destruct G as (r0 & D & _).
  rewrite dispatch_receive in D by reflexivity.
  split.
  - intros Hrm. rewrite !post_process_log_app.
    rewrite (receive_branch_peek _ _ _ _ _ _ _ _ Hrm D). reflexivity.
  - intros rm a act f messages Hrm Hpeek Hpp Ha Hf.
    rewrite !fetch_log_app in Hf. simpl in Hf. rewrite app_nil_r in Hf.
    split.
    + destruct (receive_branch_prefix _ _ _ _ _ _ _ _ _ _ _ _ _
                  Hrm Hpeek Hpp Ha D Hf) as (j & Hj & Hlog).
      exists j. split; [assumption|].
      rewrite !post_process_log_app, Hlog. simpl. rewrite app_nil_r.
      reflexivity.
    + intros Hrel.
      assert (NF : existsb is_post_fault evs = false).
      { destruct Hrel as [(rc' & Hin)|NF].
        - apply in_app_or in Hin. destruct Hin as [Hin|Hin].
          { simpl in Hin.
            repeat (destruct Hin as [Hin|Hin]; try discriminate Hin).
            contradiction. }
          apply in_app_or in Hin. destruct Hin as [Hin|Hin].
          + exact (receive_branch_released _ _ _ _ _ _ _ _ _ _
                     Hrm Hpeek D Hin).
          + simpl in Hin. destruct Hin as [Hin|[]]. discriminate Hin.
        - repeat (rewrite existsb_app in NF; simpl in NF).
          rewrite orb_false_r in NF. exact NF. }
      destruct (receive_branch_applies _ _ _ _ _ _ _ _ _ _ _ _ _
                  Hrm Hpeek Hpp Ha D Hf NF) as (pre & rc' & -> & Hpre & Hcl).
      exists (prelude cs q sub (JStr "receive") ++ pre), rc',
        [EvCall ClientClose rc].
      split; [|split; [|split; [|split]]].
      * rewrite <- !app_assoc. simpl. rewrite <- !app_assoc. reflexivity.
      * rewrite post_process_log_app, Hpre. reflexivity.
      * reflexivity.
      * rewrite count_app, Hcl. reflexivity.
      * rewrite !post_process_log_app, Hpre. simpl.
        assert (Hmap : forall l,
                   post_process_log
                     (map (fun m => EvCall (act m) (Ok tt)) l) = map act l).
        { destruct (configured_action_cases _ _ Ha) as [->|[->| ->]];
            induction l as [|m l IH]; simpl; try rewrite <- IH; reflexivity. }
        change (EvFetch f (Ok messages)
                  :: map (fun m => EvCall (act m) (Ok tt)) messages
                  ++ [EvCall ReceiverClose rc'])
          with ([EvFetch f (Ok messages)]
                  ++ map (fun m => EvCall (act m) (Ok tt)) messages
                  ++ [EvCall ReceiverClose rc']).
        rewrite !post_process_log_app, Hmap. simpl.
        rewrite !app_nil_r. reflexivity.
Qed.

Lemma post_processing_witness :
  post_process_log
    (snd (run (host_of "receive" "" 0 false) (bus_ok inbox)))
  = map CompleteMessage inbox.
Proof.
  destruct (proj2 (proj2 (post_processing
                     (host_of "receive" "" 0 false) (bus_ok inbox) eq_refl)
              (JStr "receiveAndComplete") "complete" CompleteMessage
              (ReceiveMessages (JNum 5) (JNum 100)) inbox
              eq_refl eq_refl eq_refl eq_refl eq_refl) (or_intror eq_refl))
    as (pre & rc & post & _ & _ & _ & _ & H).
  exact H.
Defined.

(** What a failing post-processing call leaves: two messages are fetched,
    completing the first one fails; the second one gets no call and the
    receiver is not closed. *)
Example complete_failure_stops :
  let r := run (host_of "receive" "" 0 false)
               (bus_complete_fails inbox (Error "lock lost")) in
  fst r = Throw (NodeOperationError
                   "Erro ao executar a operação 'receive': lock lost" None) /\
  post_process_log (snd r) = [CompleteMessage (mkReceived (JStr "a") 1)] /\
  count closes_receiver (snd r) = 0 /\
  count closes_client (snd r) = 1.
Proof. vm_compute. repeat split. Qed.

(** C9.  When the operation is neither 'send' nor 'receive', the invocation
    makes no SDK call other than opening and closing the client and no
    fetch, and it builds no error of its own: an error that it throws is the
    error of a failed parameter resolution, client construction or client
    close.  So when none of the calls it makes fails, it returns the batch
    with no record, after exactly one open and one close of the client. *)
Theorem unknown_operation host sdk op :
  getNodeParameter host "operation" 0 None = Ok op ->
  strict_eq_str op "send" = false ->
  strict_eq_str op "receive" = false ->
  fetch_log (snd (run host sdk)) = [] /\
  (forall c, In c (sdk_calls (snd (run host sdk))) ->
             c = ClientClose \/ exists cs, c = NewClient cs) /\
  (forall e, fst (run host sdk) = Throw e ->
     In (EvCall ClientClose (Throw e)) (snd (run host sdk)) \/
     (exists cs, In (EvCall (NewClient cs) (Throw e)) (snd (run host sdk))) \/
     (exists name fb, In (EvParam name 0 fb (Throw e)) (snd (run host sdk)))) /\
  (no_fault (snd (run host sdk)) ->
   fst (run host sdk) = Ok [[]] /\
   exists cs,
     getNodeParameter host "connectionString" 0 None = Ok cs /\
     sdk_calls (snd (run host sdk)) = [NewClient cs; ClientClose]).
Proof.
  intros Hop Hs Hr.
  destruct (run host sdk) as [r tr] eqn:E. simpl.
  apply run_inv in E.
  destruct E as [(e & -> & Hearly)
                | (cs & q & sub & op' & r1 & evs & rc
                   & Hcs & _ & _ & Hop' & G & _ & -> & ->)].
  - split; [destruct Hearly; reflexivity|]. split; [|split].
    + intros c Hin. destruct Hearly; simpl in Hin; try contradiction.
      destruct Hin as [<-|[]]. right. eauto.
    + intros e' [= <-]. right.
      destruct Hearly; simpl; [right|right|right|right|left]; eauto 10.
    + intros NF. apply early_exit_fault in Hearly.
      unfold no_fault in NF. congruence.
  - rewrite Hop in Hop'. injection Hop' as <-.
    apply guarded_inv in G. destruct G as (r0 & D & ->).
    unfold dispatch in D. rewrite Hs, Hr in D. minv. simpl.
    split; [reflexivity|]. split; [|split].
    + intros c [<-|[<-|[]]]; eauto.
    + intros e He. destruct rc as [[]|e']; [discriminate|].
      injection He as <-. left. auto 10.
    + intros NF. unfold no_fault in NF. simpl in NF.
      destruct rc as [[]|]; [|discriminate]. simpl. eauto.
Qed.

Lemma unknown_operation_witness :
  fst (run (host_of "purge" "" 2 false) (bus_ok inbox)) = Ok [[]].
Proof.
  apply (proj2 (proj2 (proj2 (unknown_operation
                         (host_of "purge" "" 2 false) (bus_ok inbox)
                         (JStr "purge") eq_refl eq_refl eq_refl)))).
  vm_compute. reflexivity.
Defined.

(** C10.  The parameter resolutions of an invocation are an initial part
    of [resolutions host].  So every parameter other than [messageBody] is
    resolved from item index 0 only, and none is resolved twice;
    [messageBody] is resolved only on send and only at the indices of the
    input items.  An invocation that returns has resolved exactly
    [resolutions host]: the four common parameters at index 0, then on send
    the body of each item, on receive the four receive parameters at index
    0.  Hence two hosts that agree at index 0 and on the bodies give the
    same result and the same trace on the same bus. *)
Theorem parameters_resolved host sdk :
  (exists rest, param_log (snd (run host sdk)) ++ rest = resolutions host) /\
  NoDup (param_log (snd (run host sdk))) /\
  (forall name i, In (name, i) (param_log (snd (run host sdk))) ->
     (name <> "messageBody" -> i = 0) /\
     (name = "messageBody" ->
      getNodeParameter host "operation" 0 None = Ok (JStr "send") /\
      i < length (getInputData host))) /\
  (forall out, fst (run host sdk) = Ok out ->
     param_log (snd (run host sdk)) = resolutions host) /\
  (forall host', agree host host' -> run host sdk = run host' sdk).
Proof.
  destruct (run_param_log host sdk) as (rest & Hrest & Hok).
  split; [|split; [|split; [|split]]].
  - exists rest. exact Hrest.
  - apply (NoDup_app_remove_r _ rest). rewrite Hrest.
    apply resolutions_NoDup.
  - intros name i Hin. apply resolutions_index. rewrite <- Hrest.
    apply in_or_app. auto.
  - intros out Hout. rewrite (Hok out Hout), app_nil_r in Hrest. exact Hrest.
  - intros host' Hagree. unfold run. apply execute_agree. exact Hagree.
Qed.

Lemma parameters_resolved_witness :
  run (host_of "send" "" 3 true) (bus_send_fails 1 (Error "boom"))
  = run (host_varying "send" "" 3 true) (bus_send_fails 1 (Error "boom")).
Proof.
  apply (proj2 (proj2 (proj2 (proj2 (parameters_resolved
                                (host_of "send" "" 3 true)
                                (bus_send_fails 1 (Error "boom"))))))).
  unfold agree. simpl. repeat split.
  - intros i fb. unfold parameters. simpl.
    destruct (Nat.eqb i 0); reflexivity.
Defined.

(** * Further properties of [execute] *)

(** ** Errors: where they come from *)

Lemma ends_with_fault_single ev e0 :
  fault_error ev = Some e0 -> ends_with_fault [ev] e0.
Proof. intros H. exists [], ev. auto. Qed.

Lemma ends_with_fault_cons ev evs e0 :
  ends_with_fault evs e0 -> ends_with_fault (ev :: evs) e0.
Proof. intros (pre & x & -> & H). exists (ev :: pre), x. auto. Qed.

Lemma ends_with_fault_app a b e0 :
  ends_with_fault b e0 -> ends_with_fault (a ++ b) e0.
Proof.
  intros (pre & x & -> & H). exists (a ++ pre), x.
  rewrite app_assoc. auto.
Qed.


(** Solves [ends_with_fault] on a trace given event by event. *)
Ltac ends_fault :=
  repeat first [ apply ends_with_fault_single; reflexivity
               | assumption
               | apply ends_with_fault_cons
               | apply ends_with_fault_app ].

Section Failing.

Variable host : Host.
Variable sdk : Sdk.

(** The loop stops at the failure that it does not recover from: the
    failed call is its last event, and the error of the [catch] clause
    carries its message. *)
Lemma send_loop_fails n i rd h e evs :
  send_loop host sdk n i rd h = (Throw e, evs) ->
  continueOnFail host = false /\
  exists e0, ends_with_fault evs e0 /\ message e = message e0.
Proof.
  revert i rd h evs.
  induction n as [|n IH]; intros i rd h evs H; simpl in H; minv.
  - item_cases H; subst evs; try discriminate;
      destruct (continueOnFail host); try discriminate;
      injection Hr as Hr; subst; (split; [reflexivity|]); eexists;
      (split; [ends_fault | reflexivity]).
  - destruct (IH _ _ _ _ H0) as (C & e0 & He & Hm).
    split; [exact C|]. exists e0. split; [ends_fault | exact Hm].
Qed.

Lemma post_loop_fails pp msgs h e evs :
  post_loop sdk pp msgs h = (Throw e, evs) -> ends_with_fault evs e.
Proof.
  revert h evs.
  induction msgs as [|m rest IH]; intros h evs H; simpl in H; minv.
  - unfold post_process in H. minv_if; ends_fault.
  - apply IH in H0. ends_fault.
Qed.

Lemma send_branch_fails q rd h e evs :
  send_branch host sdk q rd h = (Throw e, evs) ->
  exists e0, ends_with_fault evs e0 /\ message e = message e0.
Proof.
  unfold send_branch. intros H. minv.
  - eexists. split; [ends_fault | reflexivity].
  - destruct (send_loop_fails _ _ _ _ _ _ H0) as (_ & e0 & He & Hm).
    exists e0. split; [ends_fault | exact Hm].
  - eexists. split; [ends_fault | reflexivity].
Qed.

Lemma receive_branch_fails q sub rd h e evs :
  receive_branch host sdk q sub rd h = (Throw e, evs) ->
  ends_with_fault evs e.
Proof.
  unfold receive_branch, createReceiver. intros H. minv_if.
  all: try match goal with
         | H : post_loop _ _ _ _ = (Throw _, _) |- _ =>
             apply post_loop_fails in H
         end.
  all: ends_fault.
Qed.

Lemma dispatch_fails op q sub rd h e evs :
  dispatch host sdk op q sub rd h = (Throw e, evs) ->
  (op = JStr "send" \/ op = JStr "receive") /\
  exists e0, ends_with_fault evs e0 /\ message e = message e0.
Proof.
  unfold dispatch. intros H.
  destruct (strict_eq_str op "send") eqn:Hs;
    [|destruct (strict_eq_str op "receive") eqn:Hr].
  - split; [|exact (send_branch_fails _ _ _ _ _ H)].
    left. destruct op; try discriminate. simpl in Hs.
    apply String.eqb_eq in Hs. congruence.
  - split.
    + right. destruct op; try discriminate. simpl in Hr.
      apply String.eqb_eq in Hr. congruence.
    + exists e. split; [exact (receive_branch_fails _ _ _ _ _ _ H)|reflexivity].
  - minv.
Qed.

End Failing.

Lemma early_exit_ends e tr : early_exit e tr -> ends_with_fault tr e.
Proof. intros H. destruct H; ends_fault. Qed.

Lemma early_exit_entry e tr :
  early_exit e tr ->
  exists pre ev,
    tr = pre ++ [ev] /\ is_entry_call ev = true /\ fault_error ev = Some e /\
    existsb is_fault pre = false.
Proof.
  intros H.
  destruct H;
    [ exists [] | eexists [_] | eexists [_; _] | eexists [_; _; _]
    | eexists [_; _; _; _] ];
    eexists; repeat split; reflexivity.
Qed.

(** X1.  After a failure that is not recovered nothing more is called but
    the close of the client, and the error keeps the text of the failed
    call.  When [execute] throws [x], one of three cases holds.  Either the
    last event of the trace is a call made before the [try] block (the
    resolution of a common parameter or the construction of the client)
    that threw [x] itself, and no call failed before it.  Or the last event
    is the close of the client, which threw [x] itself.  Or the trace ends
    with a call that threw some [e0] followed by the successful close of
    the client, the operation is 'send' or 'receive', and [x] is the
    operation error with the message of [e0] and no item index (the error
    that line 214 makes from the error of a turn carries the message of
    that error, so the text is that of the failed call in a send as
    well).  So the error of a call inside the [try] block never leaves
    [execute] as it is, and never without the close of the client. *)
Theorem failure_is_last host sdk x :
  fst (run host sdk) = Throw x ->
  (exists pre ev,
     snd (run host sdk) = pre ++ [ev] /\
     is_entry_call ev = true /\
     fault_error ev = Some x /\
     existsb is_fault pre = false) \/
  (exists pre,
     snd (run host sdk) = pre ++ [EvCall ClientClose (Throw x)]) \/
  (exists pre e0 op,
     snd (run host sdk) = pre ++ [EvCall ClientClose (Ok tt)] /\
     ends_with_fault pre e0 /\
     (op = "send" \/ op = "receive") /\
     getNodeParameter host "operation" 0 None = Ok (JStr op) /\
     x = NodeOperationError
           ("Erro ao executar a operação '" ++ op ++ "': " ++ message e0)%string
           None).
Proof.
  destruct (run host sdk) as [r tr] eqn:E. simpl. intros ->.
  apply run_inv in E.
  destruct E as [(e' & [= <-] & Hearly)
                | (cs & q & sub & op & r1 & evs & rc
                   & _ & _ & _ & Hop & G & _ & -> & Hr)].
  - left. apply early_exit_entry. exact Hearly.
  - right. apply guarded_inv in G. destruct G as (r0 & D & ->).
    destruct rc as [[]|e'].
    + destruct r0 as [rd|e0]; [discriminate|]. simpl in Hr.
      injection Hr as ->.
      apply dispatch_fails in D. destruct D as (Hcase & e1 & He & Hm).
      right. exists (prelude cs q sub op ++ evs), e1.
      destruct Hcase as [-> | ->];
        [exists "send" | exists "receive"];
        (split; [rewrite app_assoc; reflexivity|]);
        (split; [ends_fault|]);
        (split; [auto|]); (split; [exact Hop|]);
        unfold operation_error; simpl; rewrite Hm; reflexivity.
    + left. simpl in Hr. injection Hr as ->.
      exists (prelude cs q sub op ++ evs). rewrite app_assoc. reflexivity.
Qed.

Lemma failure_is_last_witness :
  exists pre e0 op,
    snd (run (host_of "send" "" 3 false) (bus_send_fails 1 (Error "boom")))
      = pre ++ [EvCall ClientClose (Ok tt)] /\
    ends_with_fault pre e0 /\
    (op = "send" \/ op = "receive") /\
    NodeOperationError "Erro ao executar a operação 'send': boom" None
    = NodeOperationError
        ("Erro ao executar a operação '" ++ op ++ "': " ++ message e0)%string
        None.
Proof.
  assert (Hlast : last (snd (run (host_of "send" "" 3 false)
                                  (bus_send_fails 1 (Error "boom"))))
                       (EvCall ClientClose (Ok tt))
                  = EvCall ClientClose (Ok tt)) by (vm_compute; reflexivity).
  destruct (failure_is_last
              (host_of "send" "" 3 false) (bus_send_fails 1 (Error "boom"))
              (NodeOperationError
                 "Erro ao executar a operação 'send': boom" None))
    as [(pre & ev & Htr & Hentry & _)
       | [(pre & Htr) | (pre & e0 & op & H1 & H2 & H3 & _ & H4)]].
  - vm_compute. reflexivity.
  - exfalso. rewrite Htr, last_last in Hlast. subst ev. discriminate Hentry.
  - exfalso. rewrite Htr, last_last in Hlast. discriminate Hlast.
  - exists pre, e0, op. auto.
Defined.

(** ** Errors: which failures end the invocation *)

Section Fatal.

Variable host : Host.
Variable sdk : Sdk.

Lemma send_loop_fatal n i rd h r evs :
  send_loop host sdk n i rd h = (r, evs) ->
  existsb (is_fatal host) evs = match r with Ok _ => false | Throw _ => true end.
Proof.
  revert i rd h r evs.
  induction n as [|n IH]; intros i rd h r evs H; simpl in H; minv.
  - reflexivity.
  - item_cases H; subst evs; try discriminate;
      unfold is_fatal; simpl;
      destruct (continueOnFail host); try discriminate; reflexivity.
  - rewrite existsb_app, (IH _ _ _ _ _ H0).
    replace (existsb (is_fatal host) x0) with false; [reflexivity|].
    item_cases H; subst x0; unfold is_fatal; simpl;
      destruct (continueOnFail host); try discriminate; reflexivity.
Qed.

Lemma post_loop_fatal pp msgs h r evs :
  post_loop sdk pp msgs h = (r, evs) ->
  existsb (is_fatal host) evs = match r with Ok _ => false | Throw _ => true end.
Proof.
  revert h r evs.
  induction msgs as [|m rest IH]; intros h r evs H; simpl in H; minv.
  - reflexivity.
  - unfold post_process in H. minv_if; reflexivity.
  - rewrite existsb_app, (IH _ _ _ H0).
    replace (existsb (is_fatal host) x0) with false; [reflexivity|].
    unfold post_process in H. minv_if; reflexivity.
Qed.

Lemma dispatch_fatal op q sub rd h r evs :
  dispatch host sdk op q sub rd h = (r, evs) ->
  existsb (is_fatal host) evs = match r with Ok _ => false | Throw _ => true end.
Proof.
  unfold dispatch, send_branch, receive_branch, createReceiver. intros H.
  minv_if.
  all: repeat match goal with
         | H : send_loop _ _ _ _ _ _ = (_, _) |- _ =>
             apply send_loop_fatal in H
         | H : post_loop _ _ _ _ = (_, _) |- _ =>
             apply (post_loop_fatal) in H
         end.
  all: repeat (rewrite existsb_app; simpl).
  all: repeat match goal with
         | H : existsb (is_fatal host) _ = _ |- _ => rewrite H
         end.
  all: reflexivity.
Qed.

End Fatal.

(** X2.  [execute] returns normally exactly when no call failed, apart from
    the failures inside the turns of the send loop (the resolution of a
    body, a transmission) when continue-on-failure is on: every other
    failure makes it throw, and it throws for no other reason. *)
Theorem returns_iff_no_fatal host sdk :
  (exists out, fst (run host sdk) = Ok out) <->
  existsb (is_fatal host) (snd (run host sdk)) = false.
Proof.
  destruct (run host sdk) as [r tr] eqn:E. simpl.
  apply run_inv in E.
  destruct E as [(e' & -> & Hearly)
                | (cs & q & sub & op & r1 & evs & rc
                   & _ & _ & _ & _ & G & _ & -> & ->)].
  - split.
    + intros (out & H). discriminate.
    + intros H. destruct Hearly; discriminate H.
  - apply guarded_inv in G. destruct G as (r0 & D & ->).
    apply dispatch_fatal in D.
    repeat (rewrite existsb_app; simpl). rewrite D.
    destruct r0 as [rd|e0], rc as [[]|e']; simpl; split;
      try discriminate; eauto; intros (out & H); discriminate.
Qed.

Lemma returns_iff_no_fatal_witness :
  exists out,
    fst (run (host_of "send" "" 3 true) (bus_send_fails 1 (Error "boom")))
    = Ok out.
Proof.
  apply (proj2 (returns_iff_no_fatal
                  (host_of "send" "" 3 true)
                  (bus_send_fails 1 (Error "boom")))).
  vm_compute. reflexivity.
Defined.

(** ** The handles are used while open *)

Lemma handle_steps_app s a b :
  handle_steps s (a ++ b)
  = match handle_steps s a with
    | Some s' => handle_steps s' b
    | None => None
    end.
Proof.
  revert s. induction a as [|ev a IH]; intros s; simpl; [reflexivity|].
  destruct (handle_step s ev); [apply IH | reflexivity].
Qed.

Lemma send_loop_handles i n evs r :
  Forall (send_loop_event i n) evs ->
  handle_steps (mkHandles Opened Opened r) evs
  = Some (mkHandles Opened Opened r).
Proof.
  intros H. induction H as [|ev evs Hev _ IH]; simpl; [reflexivity|].
  destruct ev as [? ? ? ?|[] ?|? ?]; simpl in *; try contradiction; exact IH.
Qed.

Lemma post_loop_handles evs s :
  Forall (fun ev => is_post_process ev = true) evs ->
  handle_steps (mkHandles Opened s Opened) evs
  = Some (mkHandles Opened s Opened).
Proof.
  intros H. induction H as [|ev evs Hev _ IH]; simpl; [reflexivity|].
  destruct ev as [? ? ? ?|[] ?|? ?]; simpl in *; try discriminate; exact IH.
Qed.

Section Discipline.

Variable host : Host.
Variable sdk : Sdk.

Lemma dispatch_discipline op q sub rd h r evs :
  dispatch host sdk op q sub rd h = (r, evs) ->
  exists s,
    handle_steps (mkHandles Opened Unopened Unopened) evs = Some s /\
    client_state s = Opened /\
    (forall rd', r = Ok rd' ->
       is_opened (sender_state s) = false /\
       is_opened (receiver_state s) = false).
Proof.
  unfold dispatch, send_branch, receive_branch, createReceiver. intros H.
  minv_if.
  all: repeat match goal with
         | H : send_loop _ _ _ _ _ _ = (_, _) |- _ =>
             apply send_loop_events in H;
             apply (send_loop_handles _ _ _ Unopened) in H
         | H : post_loop _ _ _ _ = (_, _) |- _ =>
             apply post_loop_events in H; destruct H as [H _];
             apply (post_loop_handles _ Unopened) in H
         end.
  all: simpl;
    repeat (rewrite ?handle_steps_app; simpl;
            repeat match goal with
              | H : handle_steps _ _ = Some _ |- _ => rewrite H
              end; simpl).
  all: eexists; (split; [reflexivity|]); (split; [reflexivity|]);
    intros; try discriminate; auto.
Qed.

End Discipline.

(** X3.  Each call of an invocation respects the life of the handles: the
    client is constructed first and once; a sender or receiver is created
    at most once, on the open client; a transmission or the close of the
    sender happens on the open sender; a fetch, a post-processing call or
    the close of the receiver on the open receiver; and after the close of
    the client nothing is called.  At the end the client is not left open,
    and after a normal return neither is the sender nor the receiver. *)
Theorem handles_used_while_open host sdk :
  exists s,
    handle_steps no_handles (snd (run host sdk)) = Some s /\
    is_opened (client_state s) = false /\
    (forall out, fst (run host sdk) = Ok out ->
       is_opened (sender_state s) = false /\
       is_opened (receiver_state s) = false).
Proof.
  destruct (run host sdk) as [r tr] eqn:E. simpl.
  apply run_inv in E.
  destruct E as [(e' & -> & Hearly)
                | (cs & q & sub & op & r1 & evs & rc
                   & _ & _ & _ & _ & G & _ & -> & ->)].
  - destruct Hearly; eexists; (split; [reflexivity|]);
      (split; [reflexivity|]); discriminate.
  - apply guarded_inv in G. destruct G as (r0 & D & ->).
    apply dispatch_discipline in D.
    destruct D as ([c s r] & Hs & Hc & Hok). simpl in Hc. subst c.
    unfold prelude. simpl. rewrite handle_steps_app, Hs. simpl.
    eexists. split; [reflexivity|]. split; [reflexivity|].
    intros out Hout. simpl.
    destruct rc as [[]|]; [|discriminate].
    destruct r0 as [rd'|]; [|discriminate].
    exact (Hok rd' eq_refl).
Qed.

Lemma handles_used_while_open_witness :
  exists s,
    handle_steps no_handles
      (snd (run (host_of "receive" "audit" 0 false) (bus_ok inbox))) = Some s /\
    is_opened (sender_state s) = false /\
    is_opened (receiver_state s) = false.
Proof.
  destruct (handles_used_while_open
              (host_of "receive" "audit" 0 false) (bus_ok inbox))
    as (s & Hs & _ & Hok).
  exists s. split; [exact Hs|].
  eapply Hok. vm_compute. reflexivity.
Defined.

(** ** The records of a send *)

Section Records.

Variable host : Host.
Variable sdk : Sdk.

Lemma send_item_turn i rd h rd' evs :
  send_item host sdk i rd h = (Ok rd', evs) ->
  exists rec, rd' = rd ++ [rec] /\ turn_record host i evs rec.
Proof.
  intros H. unfold turn_record.
  item_cases H; subst evs;
    destruct (continueOnFail host) eqn:C; try discriminate;
    injection Hr as Hr; subst rd'; eexists; (split; [reflexivity|]).
  - left. exists b. split; reflexivity.
  - left. exists b. split; reflexivity.
  - right. split; [reflexivity|]. exists e. split; [|reflexivity].
    left. exists b. reflexivity.
  - right. split; [reflexivity|]. exists e. split; [|reflexivity].
    right. reflexivity.
Qed.

Lemma send_loop_turns n i rd h rd' evs :
  send_loop host sdk n i rd h = (Ok rd', evs) ->
  exists turns recs,
    rd' = rd ++ recs /\ evs = concat turns /\
    length recs = n /\ length turns = n /\
    forall j, j < n ->
      exists turn rec,
        nth_error turns j = Some turn /\ nth_error recs j = Some rec /\
        turn_record host (i + j) turn rec.
Proof.
  revert i rd h rd' evs.
  induction n as [|n IH]; intros i rd h rd' evs H; simpl in H; minv.
  - exists [], []. rewrite app_nil_r. repeat split; auto. intros; lia.
  - destruct (IH _ _ _ _ _ H0) as (turns & recs & -> & -> & Hlr & Hlt & Hall).
    destruct (send_item_turn _ _ _ _ _ H) as (rec & -> & Hturn).
    exists (x0 :: turns), (rec :: recs). rewrite <- app_assoc. simpl.
    split; [reflexivity|]. split; [reflexivity|].
    split; [congruence|]. split; [congruence|].
    intros [|j] Hj.
    + exists x0, rec. rewrite Nat.add_0_r. auto.
    + destruct (Hall j) as (turn & rec' & Ht & Hr' & Htr); [lia|].
      exists turn, rec'. replace (i + S j) with (S i + j) by lia. auto.
Qed.

Lemma send_branch_turns q h rd' evs :
  send_branch host sdk q [] h = (Ok rd', evs) ->
  exists turns,
    evs = EvCall (CreateSender q) (Ok tt)
          :: concat turns ++ [EvCall SenderClose (Ok tt)] /\
    length rd' = length (getInputData host) /\
    length turns = length (getInputData host) /\
    forall j, j < length (getInputData host) ->
      exists turn rec,
        nth_error turns j = Some turn /\ nth_error rd' j = Some rec /\
        turn_record host j turn rec.
Proof.
  unfold send_branch. intros H. minv.
  destruct (send_loop_turns _ _ _ _ _ _ H0)
    as (turns & recs & -> & -> & Hlr & Hlt & Hall).
  exists turns. simpl. rewrite ?app_nil_r. auto.
Qed.

End Records.

(** X4.  Whenever a send returns, with or without continue-on-failure, it
    returns one batch of exactly as many output items as input items, and
    the one at position [j] is what the turn of item [j] itself left.  The
    trace of the invocation is the common prelude, the creation of the
    sender, the turns of the items [0 .. N-1] in this order, the close of
    the sender and the close of the client; and for every [j] the turn is
    either the resolution of the body of item [j] and the successful
    transmission of that body, with the item
    [{json: {success: true, itemIndex: j, messageSent: body}}]; or, only
    with continue-on-failure, the resolution of the body of item [j]
    followed by the failed transmission of that body, or the failed
    resolution alone, with the item
    [{json: {success: false, itemIndex: j, error: message}}] that carries
    the message of the error thrown in this turn.  So an item whose body
    cannot be resolved leaves a failure record and is not transmitted. *)
Theorem send_records host sdk out :
  getNodeParameter host "operation" 0 None = Ok (JStr "send") ->
  fst (run host sdk) = Ok out ->
  exists cs q sub rd turns,
    out = [rd] /\
    length rd = length (getInputData host) /\
    length turns = length (getInputData host) /\
    snd (run host sdk)
    = prelude cs q sub (JStr "send")
      ++ EvCall (CreateSender q) (Ok tt)
      :: concat turns
      ++ [EvCall SenderClose (Ok tt); EvCall ClientClose (Ok tt)] /\
    forall j, j < length (getInputData host) ->
      exists turn rec,
        nth_error turns j = Some turn /\ nth_error rd j = Some rec /\
        turn_record host j turn rec.
Proof.
  intros Hop Hout.
  destruct (run host sdk) as [r tr] eqn:E. simpl in *. subst r.
  apply run_inv in E.
  destruct E as [(e & He & _)
                | (cs & q & sub & op & r1 & evs & rc
                   & _ & _ & _ & Hop' & G & _ & -> & Hr)];
    [discriminate|].
  rewrite Hop in Hop'. injection Hop' as <-.
  apply guarded_inv in G. destruct G as (r0 & D & ->).
  destruct rc as [[]|]; [|discriminate]. destruct r0 as [rd|]; [|discriminate].
  injection Hr as Hr. subst out.
  rewrite dispatch_send in D by reflexivity.
  apply send_branch_turns in D.
  destruct D as (turns & -> & Hlen & Hlt & Hall).
  exists cs, q, sub, rd, turns.
  split; [reflexivity|]. split; [exact Hlen|]. split; [exact Hlt|].
  split; [|exact Hall].
  simpl. rewrite <- app_assoc. reflexivity.
Qed.

Lemma send_records_witness :
  exists rd turns,
    fst (run (host_of "send" "" 2 true) (bus_send_fails 0 (Error "boom")))
      = Ok [rd] /\
    length rd = 2 /\
    exists turn rec,
      nth_error turns 0 = Some turn /\ nth_error rd 0 = Some rec /\
      turn_record (host_of "send" "" 2 true) 0 turn rec.
Proof.
  destruct (send_records
              (host_of "send" "" 2 true) (bus_send_fails 0 (Error "boom"))
              [[JObj [("json", JObj [("success", JBool false);
                                     ("itemIndex", JNum 0);
                                     ("error", JStr "boom")])];
                JObj [("json", JObj [("success", JBool true);
                                     ("itemIndex", JNum 1);
                                     ("messageSent", JObj [("n", JNum 1)])])]]]
              eq_refl eq_refl)
    as (cs & q & sub & rd & turns & Hout & Hlen & _ & _ & Hall).
  exists rd, turns. split; [rewrite <- Hout; reflexivity|].
  split; [exact Hlen|].
  apply Hall. simpl. lia.
Defined.

(** ** The two branches keep apart *)

Section Apart.

Variable host : Host.
Variable sdk : Sdk.

Lemma send_loop_no_receiver n i rd h r evs :
  send_loop host sdk n i rd h = (r, evs) -> count is_receiver_call evs = 0.
Proof. intros H. apply send_loop_events in H. by_events H. Qed.

Lemma post_loop_no_sender pp msgs h r evs :
  post_loop sdk pp msgs h = (r, evs) -> count is_sender_call evs = 0.
Proof.
  intros H. apply post_loop_events in H. destruct H as [H _]. by_events H.
Qed.

Lemma dispatch_apart op q sub rd h r evs :
  dispatch host sdk op q sub rd h = (r, evs) ->
  (strict_eq_str op "send" = false -> count is_sender_call evs = 0) /\
  (strict_eq_str op "send" = true \/ strict_eq_str op "receive" = false ->
   count is_receiver_call evs = 0).
Proof.
  unfold dispatch, send_branch, receive_branch, createReceiver. intros H.
  minv_if.
  all: repeat match goal with
         | H : send_loop _ _ _ _ _ _ = (_, _) |- _ =>
             apply send_loop_no_receiver in H
         | H : post_loop _ _ _ _ = (_, _) |- _ =>
             apply post_loop_no_sender in H
         end.
  all: split; intros Hc; try discriminate Hc;
    try (destruct Hc as [Hc|Hc]; discriminate Hc).
  all: crunch; reflexivity.
Qed.

End Apart.

Lemma resolutions_receive host name i :
  In (name, i) (resolutions host) ->
  In name receive_params ->
  exists op, getNodeParameter host "operation" 0 None = Ok op /\
             strict_eq_str op "send" = false /\
             strict_eq_str op "receive" = true.
Proof.
  unfold resolutions. intros Hin Hname. apply in_app_or in Hin.
  destruct Hin as [Hin|Hin].
  - exfalso. simpl in Hin, Hname.
    destruct Hin as [H|[H|[H|[H|[]]]]]; injection H as <- <-;
      intuition discriminate.
  - destruct (getNodeParameter host "operation" 0 None) as [op|];
      [|contradiction].
    destruct (strict_eq_str op "send") eqn:Hs.
    + exfalso. unfold body_params in Hin. apply in_map_iff in Hin.
      destruct Hin as (j & [= <- <-] & _). simpl in Hname.
      intuition discriminate.
    + destruct (strict_eq_str op "receive") eqn:Hr; [|contradiction].
      exists op. auto.
Qed.

(** X5.  The two operations keep apart.  Unless the operation is 'send',
    an invocation makes no call on a sender (create, send, close) and
    resolves no message body; unless it is 'receive', it makes no call on a
    receiver (create, fetch, post-process, close) and resolves none of the
    receive parameters. *)
Theorem operations_keep_apart host sdk op :
  getNodeParameter host "operation" 0 None = Ok op ->
  (strict_eq_str op "send" = false ->
   count is_sender_call (snd (run host sdk)) = 0 /\
   forall i, ~ In ("messageBody", i) (param_log (snd (run host sdk)))) /\
  (strict_eq_str op "send" = true \/ strict_eq_str op "receive" = false ->
   count is_receiver_call (snd (run host sdk)) = 0 /\
   forall name i, In (name, i) (param_log (snd (run host sdk))) ->
                  ~ In name receive_params).
Proof.
  intros Hop.
  destruct (run_param_log host sdk) as (rest & Hrest & _).
  assert (Hres : forall x, In x (param_log (snd (run host sdk))) ->
                           In x (resolutions host)).
  { intros x Hin. rewrite <- Hrest. apply in_or_app. auto. }
  destruct (run host sdk) as [r tr] eqn:E. simpl in *.
  apply run_inv in E.
  assert (Hcounts :
            (strict_eq_str op "send" = false -> count is_sender_call tr = 0) /\
            (strict_eq_str op "send" = true \/ strict_eq_str op "receive" = false ->
             count is_receiver_call tr = 0)).
  { destruct E as [(e & _ & Hearly)
                  | (cs & q & sub & op' & r1 & evs & rc
                     & _ & _ & _ & Hop' & G & _ & -> & _)].
    - destruct Hearly; split; reflexivity.
    - rewrite Hop in Hop'. injection Hop' as <-.
      apply guarded_inv in G. destruct G as (r0 & D & _).
      apply dispatch_apart in D. destruct D as [D1 D2].
      split; intros Hc; rewrite !count_app; [rewrite (D1 Hc)|rewrite (D2 Hc)];
        reflexivity. }
  destruct Hcounts as [H1 H2]. split.
  - intros Hs. split; [exact (H1 Hs)|].
    intros i Hin. apply Hres in Hin.
    apply resolutions_index in Hin. destruct Hin as [_ Hin].
    destruct (Hin eq_refl) as [Hsend _].
    rewrite Hop in Hsend. injection Hsend as ->. discriminate Hs.
  - intros Hc. split; [exact (H2 Hc)|].
    intros name i Hin Hname. apply Hres in Hin.
    destruct (resolutions_receive _ _ _ Hin Hname) as (op' & Hop' & Hs & Hr).
    rewrite Hop in Hop'. injection Hop' as <-.
    destruct Hc as [Hc|Hc]; congruence.
Qed.

Lemma operations_keep_apart_witness :
  count is_sender_call
    (snd (run (host_of "receive" "" 2 false) (bus_ok inbox))) = 0 /\
  count is_receiver_call
    (snd (run (host_of "send" "" 2 false) (bus_ok inbox))) = 0.
Proof.
  split.
  - apply (proj1 (operations_keep_apart
                    (host_of "receive" "" 2 false) (bus_ok inbox)
                    (JStr "receive") eq_refl)).
    reflexivity.
  - apply (proj2 (operations_keep_apart
                    (host_of "send" "" 2 false) (bus_ok inbox)
                    (JStr "send") eq_refl)).
    left. reflexivity.
Defined.

(** ** A send, call by call *)

Section Sequence.

Variable host : Host.
Variable sdk : Sdk.

Lemma send_loop_trace n i rd h r evs :
  send_loop host sdk n i rd h = (r, evs) ->
  existsb is_fault evs = false ->
  evs = flat_map (turn_events host) (seq i n).
Proof.
  revert i rd h r evs.
  induction n as [|n IH]; intros i rd h r evs H NF; simpl in H; minv.
  - reflexivity.
  - item_cases H; subst evs; discriminate.
  - rewrite existsb_app in NF. apply orb_false_elim in NF.
    destruct NF as [NF1 NF2].
    rewrite (IH _ _ _ _ _ H0 NF2). simpl.
    item_cases H; subst x0; try discriminate.
    unfold turn_events, resolved_body. rewrite Hb. reflexivity.
Qed.

Lemma send_branch_trace q rd h r evs :
  send_branch host sdk q rd h = (r, evs) ->
  existsb is_fault evs = false ->
  evs = EvCall (CreateSender q) (Ok tt)
        :: flat_map (turn_events host) (seq 0 (length (getInputData host)))
        ++ [EvCall SenderClose (Ok tt)].
Proof.
  unfold send_branch. intros H NF. minv; split_nf NF.
  - apply send_loop_throws in H0. congruence.
  - rewrite (send_loop_trace _ _ _ _ _ _ H0 NF). reflexivity.
Qed.

Lemma send_branch_no_input q rd h r evs :
  getInputData host = [] ->
  send_branch host sdk q rd h = (r, evs) ->
  send_outcomes evs = [] /\ forall rd', r = Ok rd' -> rd' = rd.
Proof.
  unfold send_branch. intros ->. simpl. intros H. minv.
  all: split; [reflexivity|]; intros rd' Hr; congruence.
Qed.

End Sequence.

(** X6.  A send in which no call fails makes its calls in this order, and
    no other: the four common parameters are resolved and the client is
    constructed; the sender is created on the destination; then, item by
    item in input order, the body of the item is resolved and transmitted
    before the next body is resolved; then the sender is closed; then the
    client. *)
Theorem send_trace host sdk cs q sub :
  getNodeParameter host "connectionString" 0 None = Ok cs ->
  getNodeParameter host "queueOrTopic" 0 None = Ok q ->
  getNodeParameter host "subscriptionName" 0 (Some (JStr "")) = Ok sub ->
  getNodeParameter host "operation" 0 None = Ok (JStr "send") ->
  no_fault (snd (run host sdk)) ->
  snd (run host sdk)
  = prelude cs q sub (JStr "send")
    ++ EvCall (CreateSender q) (Ok tt)
    :: flat_map (turn_events host) (seq 0 (length (getInputData host)))
    ++ [EvCall SenderClose (Ok tt); EvCall ClientClose (Ok tt)].
Proof.
  intros Hcs Hq Hsub Hop NF. unfold no_fault in NF.
  destruct (run host sdk) as [r tr] eqn:E. simpl in *.
  apply run_inv in E.
  destruct E as [(e & _ & Hearly)
                | (cs' & q' & sub' & op & r1 & evs & rc
                   & Hcs' & Hq' & Hsub' & Hop' & G & Hrc & -> & ->)].
  { apply early_exit_fault in Hearly. congruence. }
  rewrite Hcs in Hcs'. rewrite Hq in Hq'. rewrite Hsub in Hsub'.
  rewrite Hop in Hop'.
  injection Hcs' as <-. injection Hq' as <-. injection Hsub' as <-.
  injection Hop' as <-.
  split_nf NF. apply orb_false_elim in NF. destruct NF as [NF NFc].
  destruct rc as [[]|e]; [|discriminate].
  apply guarded_inv in G. destruct G as (r0 & D & _).
  rewrite dispatch_send in D by reflexivity.
  rewrite (send_branch_trace _ _ _ _ _ _ _ D NF).
  simpl. rewrite <- app_assoc. reflexivity.
Qed.

Lemma send_trace_witness :
  snd (run (host_of "send" "" 2 false) (bus_ok []))
  = prelude (JStr "Endpoint=sb://bus/") (JStr "orders") (JStr "") (JStr "send")
    ++ EvCall (CreateSender (JStr "orders")) (Ok tt)
    :: flat_map (turn_events (host_of "send" "" 2 false)) (seq 0 2)
    ++ [EvCall SenderClose (Ok tt); EvCall ClientClose (Ok tt)].
Proof.
  apply (send_trace (host_of "send" "" 2 false) (bus_ok [])
           (JStr "Endpoint=sb://bus/") (JStr "orders") (JStr ""));
    reflexivity.
Defined.

(** X7.  With no input item a send resolves no body and transmits nothing,
    whatever the bus does; if it returns, it returns the batch with no
    record. *)
Theorem send_no_input host sdk :
  getNodeParameter host "operation" 0 None = Ok (JStr "send") ->
  getInputData host = [] ->
  send_outcomes (snd (run host sdk)) = [] /\
  (forall i, ~ In ("messageBody", i) (param_log (snd (run host sdk)))) /\
  (forall out, fst (run host sdk) = Ok out -> out = [[]]).
Proof.
  intros Hop Hnil.
  destruct (run_param_log host sdk) as (rest & Hrest & _).
  assert (Hres : forall x, In x (param_log (snd (run host sdk))) ->
                           In x (resolutions host)).
  { intros x Hin. rewrite <- Hrest. apply in_or_app. auto. }
  destruct (run host sdk) as [r tr] eqn:E. simpl in *.
  apply run_inv in E.
  split; [|split].
  - destruct E as [(e & _ & Hearly)
                  | (cs & q & sub & op & r1 & evs & rc
                     & _ & _ & _ & Hop' & G & _ & -> & _)].
    { destruct Hearly; reflexivity. }
    rewrite Hop in Hop'. injection Hop' as <-.
    apply guarded_inv in G. destruct G as (r0 & D & _).
    rewrite dispatch_send in D by reflexivity.
    apply (send_branch_no_input _ _ _ _ _ _ _ Hnil) in D.
    destruct D as [D _]. rewrite !send_outcomes_app, D. reflexivity.
  - intros i Hin. apply Hres, resolutions_index in Hin.
    destruct Hin as [_ Hin]. destruct (Hin eq_refl) as [_ Hlt].
    rewrite Hnil in Hlt. simpl in Hlt. lia.
  - intros out Hout. subst r.
    destruct E as [(e & He & _)
                  | (cs & q & sub & op & r1 & evs & rc
                     & _ & _ & _ & Hop' & G & _ & -> & Hr)];
      [discriminate|].
    rewrite Hop in Hop'. injection Hop' as <-.
    apply guarded_inv in G. destruct G as (r0 & D & ->).
    rewrite dispatch_send in D by reflexivity.
    apply (send_branch_no_input _ _ _ _ _ _ _ Hnil) in D.
    destruct D as [_ D].
    destruct rc as [[]|]; [|discriminate].
    destruct r0 as [rd|]; [|discriminate].
    injection Hr as ->. rewrite (D rd eq_refl). reflexivity.
Qed.

Lemma send_no_input_witness :
  send_outcomes
    (snd (run (host_of "send" "" 0 false) (bus_send_fails 0 (Error "boom"))))
  = [] /\
  fst (run (host_of "send" "" 0 false) (bus_send_fails 0 (Error "boom")))
  = Ok [[]].
Proof.
  destruct (send_no_input (host_of "send" "" 0 false)
              (bus_send_fails 0 (Error "boom")) eq_refl eq_refl)
    as (H1 & _ & H3).
  split; [exact H1|].
  assert (H : exists out,
             fst (run (host_of "send" "" 0 false)
                      (bus_send_fails 0 (Error "boom"))) = Ok out)
    by (eexists; vm_compute; reflexivity).
  destruct H as (out & Hout). rewrite Hout. f_equal. exact (H3 out Hout).
Defined.

(** ** A receive, call by call *)

Section ReceiveSequence.

Variable host : Host.
Variable sdk : Sdk.


Lemma post_loop_unrecognised pp msgs h r evs :
  strict_eq_str pp "complete" = false ->
  strict_eq_str pp "abandon" = false ->
  strict_eq_str pp "deadLetter" = false ->
  post_loop sdk pp msgs h = (r, evs) ->
  r = Ok tt /\ evs = [].
Proof.
  intros H1 H2 H3. revert h r evs.
  induction msgs as [|m msgs IH]; intros h r evs H; simpl in H;
    unfold post_process in H; rewrite ?H1, ?H2, ?H3 in H; minv.
  - auto.
  - apply IH in H0. destruct H0 as [-> ->]. auto.
Qed.


End ReceiveSequence.

Lemma fetch_log_in f o tr :
  In (EvFetch f o) tr -> In (f, o) (fetch_log tr).
Proof.
  intros H. unfold fetch_log. apply in_flat_map.
  exists (EvFetch f o). split; [exact H | left; reflexivity].
Qed.

Section ReceiveChoice.

Variable host : Host.
Variable sdk : Sdk.

Lemma receive_branch_fetch q sub rd mm mw rm h r evs :
  getNodeParameter host "maxMessages" 0 None = Ok mm ->
  getNodeParameter host "maxWaitTime" 0 None = Ok mw ->
  getNodeParameter host "receiveMode" 0 None = Ok rm ->
  receive_branch host sdk q sub rd h = (r, evs) ->
  fetch_log evs = [] \/ exists o, fetch_log evs = [(fetch_of rm mm mw, o)].
Proof.
  intros Hmm Hmw Hrm H.
  unfold receive_branch, createReceiver, fetch_of in *.
  minv_if; loop_facts;
    rewrite ?Hmm, ?Hmw, ?Hrm in *; res_inj; subst.
  all: repeat match goal with
         | H : strict_eq_str ?a ?b = _ |- context [strict_eq_str ?a ?b] =>
             rewrite H
         end.
  all: crunch; eauto.
Qed.

Lemma receive_branch_unrecognised q sub rd pp h r evs :
  getNodeParameter host "postProcess" 0 None = Ok pp ->
  strict_eq_str pp "complete" = false ->
  strict_eq_str pp "abandon" = false ->
  strict_eq_str pp "deadLetter" = false ->
  receive_branch host sdk q sub rd h = (r, evs) ->
  post_process_log evs = [] /\
  forall f messages,
    In (EvFetch f (Ok messages)) evs ->
    exists pre rc,
      evs = pre ++ [EvFetch f (Ok messages); EvCall ReceiverClose rc].
Proof.
  intros Hpp H1 H2 H3 H.
  unfold receive_branch, createReceiver in *.
  minv_if; rewrite ?Hpp in *; res_inj; subst.
  all: repeat match goal with
         | H : post_loop _ _ _ _ = (_, _) |- _ =>
             apply (post_loop_unrecognised _ _ _ _ _ _ H1 H2 H3) in H;
             destruct H as [? ?]; subst; try discriminate
         end.
  all: split; [reflexivity|].
  all: intros f messages Hin; simpl in Hin.
  all: repeat (destruct Hin as [Hin|Hin]; try discriminate Hin);
       try contradiction.
  all: injection Hin as <- <-.
  all: simpl; rewrite ?app_nil_r.
  all: eexists (_ :: _ :: _ :: _ :: [_]); eexists; reflexivity.
Qed.

End ReceiveChoice.



(** X9.  At most one fetch is made, and its arguments are the resolved
    parameters: when the receive mode is 'peek' it is a peek of at most
    [maxMessages]; for every other receive mode it is a receive of at most
    [maxMessages] that waits at most [maxWaitTime]. *)
Theorem fetch_selection host sdk mm mw rm :
  getNodeParameter host "maxMessages" 0 None = Ok mm ->
  getNodeParameter host "maxWaitTime" 0 None = Ok mw ->
  getNodeParameter host "receiveMode" 0 None = Ok rm ->
  fetch_log (snd (run host sdk)) = [] \/
  exists o, fetch_log (snd (run host sdk)) = [(fetch_of rm mm mw, o)].
Proof.
  intros Hmm Hmw Hrm.
  destruct (run host sdk) as [r tr] eqn:E. simpl.
  apply run_inv in E.
  destruct E as [(e & _ & Hearly)
                | (cs & q & sub & op & r1 & evs & rc
                   & _ & _ & _ & _ & G & _ & -> & _)].
  { left. destruct Hearly; reflexivity. }
  apply guarded_inv in G. destruct G as (r0 & D & _).
  rewrite !fetch_log_app. simpl. rewrite app_nil_r.
  unfold dispatch in D.
  destruct (strict_eq_str op "send");
    [|destruct (strict_eq_str op "receive")].
  - left. unfold send_branch in D. minv; loop_facts; crunch; reflexivity.
  - exact (receive_branch_fetch _ _ _ _ _ _ _ _ _ _ _ Hmm Hmw Hrm D).
  - minv. auto.
Qed.

Lemma fetch_selection_witness :
  fetch_log (snd (run (host_receiving "peek" "complete") (bus_ok inbox)))
    = [(PeekMessages (JNum 5), Ok inbox)] /\
  fetch_log (snd (run (host_receiving "drain" "complete") (bus_ok inbox)))
    = [(ReceiveMessages (JNum 5) (JNum 100), Ok inbox)].
Proof.
  split.
  - destruct (fetch_selection (host_receiving "peek" "complete")
                (bus_ok inbox) (JNum 5) (JNum 100) (JStr "peek")
                eq_refl eq_refl eq_refl) as [H|(o & H)].
    + discriminate H.
    + rewrite H. vm_compute in H. injection H as <-. reflexivity.
  - destruct (fetch_selection (host_receiving "drain" "complete")
                (bus_ok inbox) (JNum 5) (JNum 100) (JStr "drain")
                eq_refl eq_refl eq_refl) as [H|(o & H)].
    + discriminate H.
    + rewrite H. vm_compute in H. injection H as <-. reflexivity.
Defined.

(** X10.  With a post-processing action that is none of 'complete',
    'abandon' and 'deadLetter', no post-processing call is made, in any
    receive mode: once the fetch has returned its messages, the next call
    is the close of the receiver, so that the fetched messages are left
    unsettled. *)
Theorem unrecognised_action host sdk pp :
  getNodeParameter host "postProcess" 0 None = Ok pp ->
  strict_eq_str pp "complete" = false ->
  strict_eq_str pp "abandon" = false ->
  strict_eq_str pp "deadLetter" = false ->
  post_process_log (snd (run host sdk)) = [] /\
  forall f messages,
    In (EvFetch f (Ok messages)) (snd (run host sdk)) ->
    exists pre rc post,
      snd (run host sdk)
      = pre ++ EvFetch f (Ok messages) :: EvCall ReceiverClose rc :: post.
Proof.
  intros Hpp H1 H2 H3.
  destruct (run host sdk) as [r tr] eqn:E. simpl.
  apply run_inv in E.
  destruct E as [(e & _ & Hearly)
                | (cs & q & sub & op & r1 & evs & rc
                   & _ & _ & _ & _ & G & _ & -> & _)].
  { split; [destruct Hearly; reflexivity|].
    intros f messages Hin. destruct Hearly; simpl in Hin;
      repeat (destruct Hin as [Hin|Hin]; try discriminate Hin);
      contradiction. }
  apply guarded_inv in G. destruct G as (r0 & D & _).
  assert (Hevs : post_process_log evs = [] /\
                 forall f messages,
                   In (EvFetch f (Ok messages)) evs ->
                   exists pre rc',
                     evs = pre ++ [EvFetch f (Ok messages);
                                   EvCall ReceiverClose rc']).
  { unfold dispatch in D.
    destruct (strict_eq_str op "send");
      [|destruct (strict_eq_str op "receive")].
    - assert (Hf : fetch_log evs = [])
        by (unfold send_branch in D; minv; loop_facts; crunch; reflexivity).
      split.
      + unfold send_branch in D. minv; loop_facts; crunch; reflexivity.
      + intros f messages Hin. apply fetch_log_in in Hin.
        rewrite Hf in Hin. contradiction.
    - exact (receive_branch_unrecognised _ _ _ _ _ _ _ _ _ Hpp H1 H2 H3 D).
    - minv. split; [reflexivity|]. intros f messages []. }
  destruct Hevs as [Hlog Hnext].
  split.
  - rewrite !post_process_log_app, Hlog. reflexivity.
  - intros f messages Hin.
    apply in_app_or in Hin. destruct Hin as [Hin|Hin].
    { simpl in Hin.
      repeat (destruct Hin as [Hin|Hin]; try discriminate Hin).
      contradiction. }
    apply in_app_or in Hin. destruct Hin as [Hin|Hin].
    + destruct (Hnext f messages Hin) as (pre & rc' & ->).
      exists (prelude cs q sub op ++ pre), rc', [EvCall ClientClose rc].
      rewrite <- !app_assoc. reflexivity.
    + simpl in Hin. destruct Hin as [Hin|[]]. discriminate Hin.
Qed.

Lemma unrecognised_action_witness :
  post_process_log
    (snd (run (host_receiving "receiveAndComplete" "defer") (bus_ok inbox)))
  = [] /\
  exists pre rc post,
    snd (run (host_receiving "receiveAndComplete" "defer") (bus_ok inbox))
    = pre ++ EvFetch (ReceiveMessages (JNum 5) (JNum 100)) (Ok inbox)
          :: EvCall ReceiverClose rc :: post.
Proof.
  destruct (unrecognised_action
              (host_receiving "receiveAndComplete" "defer") (bus_ok inbox)
              (JStr "defer") eq_refl eq_refl eq_refl eq_refl) as [H1 H2].
  split; [exact H1|].
  apply H2. vm_compute. do 10 right. left. reflexivity.
Defined.

(** ** Handles that are left open *)

Section Balance.

Variable host : Host.
Variable sdk : Sdk.

Lemma send_loop_aborts n i rd h r evs :
  send_loop host sdk n i rd h = (r, evs) ->
  count (aborts_send host) evs = match r with Ok _ => 0 | Throw _ => 1 end /\
  count aborts_receive evs = 0.
Proof.
  revert i rd h r evs.
  induction n as [|n IH]; intros i rd h r evs H; simpl in H; minv.
  - auto.
  - item_cases H; subst evs; try discriminate;
      unfold count, aborts_send; simpl;
      destruct (continueOnFail host); try discriminate; auto.
  - rewrite !count_app. destruct (IH _ _ _ _ _ H0) as [-> ->].
    replace (count (aborts_send host) x0) with 0;
      [replace (count aborts_receive x0) with 0; [auto|]|].
    all: item_cases H; subst x0; unfold count, aborts_send; simpl;
      destruct (continueOnFail host); try discriminate; reflexivity.
Qed.

Lemma post_loop_aborts pp msgs h r evs :
  post_loop sdk pp msgs h = (r, evs) ->
  count aborts_receive evs = match r with Ok _ => 0 | Throw _ => 1 end /\
  count (aborts_send host) evs = 0.
Proof.
  revert h r evs.
  induction msgs as [|m rest IH]; intros h r evs H; simpl in H; minv.
  - auto.
  - unfold post_process in H. unfold count, aborts_send.
    minv_if; simpl; rewrite ?andb_false_r; auto.
  - rewrite !count_app. destruct (IH _ _ _ H0) as [-> ->].
    replace (count aborts_receive x0) with 0;
      [replace (count (aborts_send host) x0) with 0; [auto|]|].
    all: unfold post_process in H; unfold count, aborts_send;
      minv_if; simpl; rewrite ?andb_false_r; reflexivity.
Qed.

Lemma dispatch_balance op q sub rd h r evs :
  dispatch host sdk op q sub rd h = (r, evs) ->
  count opens_sender evs
  = count closes_sender evs + count (aborts_send host) evs /\
  count opens_receiver evs
  = count closes_receiver evs + count aborts_receive evs /\
  count opens_sender evs + count opens_receiver evs <= 1.
Proof.
  unfold dispatch, send_branch, receive_branch, createReceiver. intros H.
  minv_if.
  all: repeat match goal with
         | H : send_loop _ _ _ _ _ _ = (_, _) |- _ =>
             let A := fresh "A" in
             pose proof (send_loop_aborts _ _ _ _ _ _ H) as [A ?];
             simpl in A; loop_facts
         | H : post_loop _ _ _ _ = (_, _) |- _ =>
             let A := fresh "A" in
             pose proof (post_loop_aborts _ _ _ _ _ H) as [A ?];
             simpl in A; loop_facts
         end.
  all: repeat rewrite ?count_app, ?count_cons, ?count_nil.
  all: repeat match goal with
         | H : count _ _ = _ |- _ => rewrite H
         end.
  all: unfold aborts_send; simpl; rewrite ?andb_false_r; simpl.
  all: repeat split; lia.
Qed.

End Balance.

(** X11.  Opened handles are closed or accounted for.  An invocation opens
    at most one handle besides the client, a sender or a receiver, and it
    closes that handle, once, unless the branch is left before its close
    call: the sender that was opened is left open exactly when a failure in
    a turn of the send loop (the resolution of a body or a transmission)
    ends the invocation, that is, without continue-on-failure; the receiver
    that was opened is left open exactly when the fetch or a
    post-processing call fails. *)
Theorem handle_balance host sdk :
  count opens_sender (snd (run host sdk))
  = count closes_sender (snd (run host sdk))
    + count (aborts_send host) (snd (run host sdk)) /\
  count opens_receiver (snd (run host sdk))
  = count closes_receiver (snd (run host sdk))
    + count aborts_receive (snd (run host sdk)) /\
  count opens_sender (snd (run host sdk))
  + count opens_receiver (snd (run host sdk)) <= 1.
Proof.
  destruct (run host sdk) as [r tr] eqn:E. simpl.
  apply run_inv in E.
  destruct E as [(e & _ & Hearly)
                | (cs & q & sub & op & r1 & evs & rc
                   & _ & _ & _ & _ & G & _ & -> & _)].
  { destruct Hearly; unfold count, aborts_send; simpl;
      rewrite ?andb_false_r; simpl; repeat split; lia. }
  apply guarded_inv in G. destruct G as (r0 & D & _).
  pose proof (dispatch_balance _ _ _ _ _ _ _ _ _ D) as (Hs & Hr & Hle).
  assert (Hp : count (aborts_send host) (prelude cs q sub op) = 0)
    by (unfold count, aborts_send; simpl; rewrite ?andb_false_r; reflexivity).
  assert (Hc : count (aborts_send host) [EvCall ClientClose rc] = 0)
    by (unfold count, aborts_send; simpl; rewrite ?andb_false_r; reflexivity).
  rewrite !count_app, Hp, Hc, Hs, Hr.
  repeat match goal with
    | |- context [count ?p (prelude ?a ?b ?c ?d)] =>
        change (count p (prelude a b c d)) with 0
    | |- context [count ?p [EvCall ClientClose ?o]] =>
        change (count p [EvCall ClientClose o]) with 0
    end.
  lia.
Qed.

(** ** Failures before the [try] block *)

(** X12.  When the client is not opened, because a common parameter does
    not resolve or because the construction of the client fails, [execute]
    throws the error of that call itself, which is its last event, and not
    an error that wraps it; nothing is created, fetched or closed: the only
    SDK call made, if any, is the failed construction. *)
Theorem client_not_opened host sdk :
  count opens_client (snd (run host sdk)) = 0 ->
  exists e,
    fst (run host sdk) = Throw e /\
    ends_with_fault (snd (run host sdk)) e /\
    count closes_client (snd (run host sdk)) = 0 /\
    fetch_log (snd (run host sdk)) = [] /\
    (sdk_calls (snd (run host sdk)) = [] \/
     exists cs, sdk_calls (snd (run host sdk)) = [NewClient cs]).
Proof.
  intros H0.
  destruct (run host sdk) as [r tr] eqn:E. simpl in *.
  apply run_inv in E.
  destruct E as [(e & -> & Hearly)
                | (cs & q & sub & op & r1 & evs & rc
                   & _ & _ & _ & _ & _ & _ & -> & _)].
  - exists e. split; [reflexivity|].
    split; [exact (early_exit_ends _ _ Hearly)|].
    destruct Hearly; simpl; repeat split; eauto.
  - rewrite !count_app in H0.
    change (count opens_client (prelude cs q sub op)) with 1 in H0.
    discriminate H0.
Qed.

Lemma client_not_opened_witness :
  fst (run (host_of "send" "" 2 false) (bus_down (Error "no route")))
  = Throw (Error "no route") /\
  sdk_calls (snd (run (host_of "send" "" 2 false)
                      (bus_down (Error "no route"))))
  = [NewClient (JStr "Endpoint=sb://bus/")].
Proof.
  destruct (client_not_opened (host_of "send" "" 2 false)
              (bus_down (Error "no route")) eq_refl)
    as (e & He & _ & _ & _ & _).
  split; [|reflexivity].
  rewrite He. vm_compute in He. injection He as <-. reflexivity.
Defined.

(** ** The node description and [execute] *)

Lemma strict_eq_str_true v s : strict_eq_str v s = true -> v = JStr s.
Proof.
  destruct v; simpl; try discriminate.
  intros H. apply String.eqb_eq in H. congruence.
Qed.

Section Declared.

Variable host : Host.
Variable sdk : Sdk.

Lemma send_loop_declared n i rd h r evs :
  send_loop host sdk n i rd h = (r, evs) -> Forall declared_event evs.
Proof.
  intros H. apply send_loop_events in H.
  eapply Forall_impl; [|exact H].
  intros [name j fb o|c o|f o]; simpl; try tauto.
  intros (-> & -> & _). eexists. split; [reflexivity|auto].
Qed.

Lemma post_loop_declared pp msgs h r evs :
  post_loop sdk pp msgs h = (r, evs) -> Forall declared_event evs.
Proof.
  revert h r evs.
  induction msgs as [|m rest IH]; intros h r evs H; simpl in H; minv.
  - constructor.
  - unfold post_process in H. minv_if; repeat constructor.
  - apply Forall_app. split; [|eauto].
    unfold post_process in H. minv_if; repeat constructor.
Qed.

Lemma dispatch_declared op q sub rd h r evs :
  dispatch host sdk op q sub rd h = (r, evs) -> Forall declared_event evs.
Proof.
  unfold dispatch, send_branch, receive_branch, createReceiver. intros H.
  minv_if.
  all: repeat match goal with
         | H : send_loop _ _ _ _ _ _ = (_, _) |- _ =>
             apply send_loop_declared in H
         | H : post_loop _ _ _ _ = (_, _) |- _ =>
             apply post_loop_declared in H
         end.
  all: repeat (apply Forall_app; split); repeat apply Forall_cons;
       try apply Forall_nil; simpl; auto.
  all: eexists; split; [reflexivity|auto].
Qed.

End Declared.

(** X13.  [execute] resolves only parameters that the node description
    declares, and where it passes a fallback value (it does so for
    [subscriptionName] only) the fallback is the default that the
    description declares for the parameter. *)
Theorem parameters_declared host sdk name i fb o :
  In (EvParam name i fb o) (snd (run host sdk)) ->
  exists p, Schema.lookup name = Some p /\
            (fb = None \/ fb = Some (Schema.default p)).
Proof.
  intros Hin.
  assert (HF : Forall declared_event (snd (run host sdk))).
  { destruct (run host sdk) as [r tr] eqn:E. simpl.
    apply run_inv in E.
    destruct E as [(e & _ & Hearly)
                  | (cs & q & sub & op & r1 & evs & rc
                     & _ & _ & _ & _ & G & _ & -> & _)].
    - destruct Hearly; repeat apply Forall_cons; try apply Forall_nil;
        simpl; auto; eexists; (split; [reflexivity|auto]).
    - apply guarded_inv in G. destruct G as (r0 & D & _).
      apply dispatch_declared in D.
      repeat (apply Forall_app; split); [|exact D|].
      + repeat apply Forall_cons; try apply Forall_nil;
          simpl; auto; eexists; (split; [reflexivity|auto]).
      + repeat constructor. }
  rewrite Forall_forall in HF. exact (HF _ Hin).
Qed.

Lemma parameters_declared_witness :
  exists p, Schema.lookup "subscriptionName" = Some p /\
            (Some (JStr "") = None \/ Some (JStr "") = Some (Schema.default p)).
Proof.
  apply (parameters_declared (host_of "send" "" 1 false) (bus_ok [])
           "subscriptionName" 0 (Some (JStr "")) (Ok (JStr ""))).
  vm_compute. right. right. left. reflexivity.
Defined.

Lemma lookup_name n p : Schema.lookup n = Some p -> Schema.name p = n.
Proof.
  unfold Schema.lookup. intros H. apply find_some in H.
  destruct H as [_ H]. apply String.eqb_eq in H. exact H.
Qed.

Lemma resolutions_displayed host op name i :
  getNodeParameter host "operation" 0 None = Ok op ->
  In (name, i) (resolutions host) ->
  exists p, Schema.lookup name = Some p /\ Schema.displayed p op = true.
Proof.
  intros Hop Hin. unfold resolutions in Hin. rewrite Hop in Hin.
  apply in_app_or in Hin. destruct Hin as [Hin|Hin].
  { simpl in Hin.
    repeat (destruct Hin as [Hin|Hin];
            [injection Hin as <- <-; eexists; split; reflexivity|]).
    contradiction. }
  destruct (strict_eq_str op "send") eqn:Hs;
    [|destruct (strict_eq_str op "receive") eqn:Hr].
  - unfold body_params in Hin. apply in_map_iff in Hin.
    destruct Hin as (j & Hj & _). injection Hj as <- <-.
    eexists. split; [reflexivity|].
    unfold Schema.displayed. simpl. rewrite Hs. reflexivity.
  - simpl in Hin.
    repeat (destruct Hin as [Hin|Hin];
            [injection Hin as <- <-; eexists; split;
               [reflexivity
               |unfold Schema.displayed; simpl; rewrite Hr; reflexivity]|]).
    contradiction.
  - contradiction.
Qed.

Lemma displayed_resolutions host op p :
  getNodeParameter host "operation" 0 None = Ok op ->
  (strict_eq_str op "send" = true -> getInputData host <> []) ->
  In p Schema.properties ->
  Schema.displayed p op = true ->
  In (Schema.name p, 0) (resolutions host).
Proof.
  intros Hop Hitems Hin Hd. unfold resolutions. rewrite Hop.
  apply in_or_app.
  simpl in Hin.
  repeat (destruct Hin as [Hin|Hin];
          [subst p; try (left; simpl; tauto)|]);
    try contradiction.
  all: right; unfold Schema.displayed in Hd; simpl in Hd;
    rewrite orb_false_r in Hd.
  - rewrite Hd. specialize (Hitems Hd).
    destruct (getInputData host); [congruence|]. left. reflexivity.
  - destruct (strict_eq_str op "send") eqn:Hs.
    { apply strict_eq_str_true in Hs. subst op. discriminate Hd. }
    rewrite Hd. simpl. tauto.
  - destruct (strict_eq_str op "send") eqn:Hs.
    { apply strict_eq_str_true in Hs. subst op. discriminate Hd. }
    rewrite Hd. simpl. tauto.
  - destruct (strict_eq_str op "send") eqn:Hs.
    { apply strict_eq_str_true in Hs. subst op. discriminate Hd. }
    rewrite Hd. simpl. tauto.
  - destruct (strict_eq_str op "send") eqn:Hs.
    { apply strict_eq_str_true in Hs. subst op. discriminate Hd. }
    rewrite Hd. simpl. tauto.
Qed.

(** X14.  [execute] reads what the editor shows.  Every parameter that an
    invocation resolves is one that the node description displays for the
    operation selected; and an invocation that returns has resolved every
    parameter displayed for that operation (for a send, provided that there
    is an input item, the body being resolved per item).  So the body is
    never read by a receive, nor a receive parameter by a send, and an
    operation that is neither reads only the four common parameters. *)
Theorem reads_what_is_displayed host sdk op :
  getNodeParameter host "operation" 0 None = Ok op ->
  (forall name i,
     In (name, i) (param_log (snd (run host sdk))) ->
     exists p, Schema.lookup name = Some p /\ Schema.displayed p op = true) /\
  (forall out p,
     fst (run host sdk) = Ok out ->
     (strict_eq_str op "send" = true -> getInputData host <> []) ->
     In p Schema.properties ->
     Schema.displayed p op = true ->
     In (Schema.name p, 0) (param_log (snd (run host sdk)))).
Proof.
  intros Hop.
  destruct (run_param_log host sdk) as (rest & Hrest & Hfull).
  split.
  - intros name i Hin.
    apply (resolutions_displayed host op name i Hop).
    rewrite <- Hrest. apply in_or_app. auto.
  - intros out p Hout Hitems Hin Hd.
    rewrite (Hfull out Hout), app_nil_r in Hrest. rewrite Hrest.
    exact (displayed_resolutions host op p Hop Hitems Hin Hd).
Qed.

Lemma reads_what_is_displayed_witness :
  In ("maxWaitTime", 0)
     (param_log (snd (run (host_of "receive" "" 0 false) (bus_ok inbox)))) /\
  exists p, Schema.lookup "receiveMode" = Some p /\
            Schema.displayed p (JStr "receive") = true.
Proof.
  destruct (reads_what_is_displayed (host_of "receive" "" 0 false)
              (bus_ok inbox) (JStr "receive") eq_refl) as [H1 H2].
  split.
  - apply (H2 [[item (receive_record (JStr "orders") (JStr "") inbox)]]
              (nth 6 Schema.properties
                 (Schema.mkProperty "" "" Schema.TString JNull false false []
                    None ""))).
    + reflexivity.
    + intros H. discriminate H.
    + simpl. do 6 right. left. reflexivity.
    + reflexivity.
  - apply (H1 "receiveMode" 0). vm_compute. do 7 right. left. reflexivity.
Defined.

Section Offered.

Variable host : Host.
Variable sdk : Sdk.

Lemma dispatch_unknown op q sub rd h :
  strict_eq_str op "send" = false ->
  strict_eq_str op "receive" = false ->
  dispatch host sdk op q sub rd h = (Ok rd, []).
Proof.
  intros Hs Hr. unfold dispatch. rewrite Hs, Hr. reflexivity.
Qed.

Lemma dispatch_known op q sub rd h :
  strict_eq_str op "send" || strict_eq_str op "receive" = true ->
  snd (dispatch host sdk op q sub rd h) <> [].
Proof.
  intros H. destruct (dispatch host sdk op q sub rd h) as [r evs] eqn:D.
  simpl. unfold dispatch, send_branch, receive_branch in D.
  destruct (strict_eq_str op "send");
    [|destruct (strict_eq_str op "receive"); [|discriminate H]].
  all: minv; discriminate.
Qed.

End Offered.

(** X15.  The branches of [execute] are the choices that the node
    description offers.  The body of the [try] block does something (it
    makes a call or resolves a parameter) exactly for the operations that
    the description lists, and for every other string it does nothing at
    all; the body of the post-processing loop makes a call exactly for the
    actions that the description lists. *)
Theorem offered_choices_handled host sdk :
  (forall v q sub rd h,
     In v (Schema.values "operation") <->
     snd (dispatch host sdk (JStr v) q sub rd h) <> []) /\
  (forall a msg h,
     In a (Schema.values "postProcess") <->
     snd (post_process sdk (JStr a) msg h) <> []).
Proof.
  split.
  - intros v q sub rd h. split.
    + intros Hin. apply dispatch_known. simpl in *.
      destruct Hin as [<-|[<-|[]]]; reflexivity.
    + intros Hne. simpl.
      destruct (String.eqb v "send") eqn:Hs;
        [apply String.eqb_eq in Hs; auto|].
      destruct (String.eqb v "receive") eqn:Hr;
        [apply String.eqb_eq in Hr; auto|].
      rewrite dispatch_unknown in Hne by assumption.
      contradiction Hne. reflexivity.
  - intros a msg h. unfold post_process. simpl. split.
    + intros [<-|[<-|[<-|[]]]]; discriminate.
    + intros Hne.
      destruct (String.eqb a "complete") eqn:H1;
        [apply String.eqb_eq in H1; auto|].
      destruct (String.eqb a "abandon") eqn:H2;
        [apply String.eqb_eq in H2; auto|].
      destruct (String.eqb a "deadLetter") eqn:H3;
        [apply String.eqb_eq in H3; auto|].
      contradiction Hne. reflexivity.
Qed.

(** X16.  An invocation that returns, returns one list of records for each
    output that the node description declares: a single list. *)
Theorem one_list_per_output host sdk out :
  fst (run host sdk) = Ok out ->
  length out = length Schema.outputs.
Proof.
  intros Hout.
  destruct (run host sdk) as [r tr] eqn:E. simpl in *. subst r.
  apply run_inv in E.
  destruct E as [(e & He & _)
                | (cs & q & sub & op & r1 & evs & rc
                   & _ & _ & _ & _ & G & _ & _ & Hr)];
    [discriminate|].
  apply guarded_inv in G. destruct G as (r0 & D & ->).
  destruct rc as [[]|]; [|discriminate].
  destruct r0 as [rd|]; [|discriminate].
  injection Hr as Hr. subst out. reflexivity.
Qed.

Lemma one_list_per_output_witness :
  length [[item (receive_record (JStr "orders") (JStr "audit") inbox)]]
  = length Schema.outputs.
Proof.
  apply (one_list_per_output (host_of "receive" "audit" 0 false)
           (bus_ok inbox)).
  reflexivity.
Defined.
